(** * Hotkey tag navigation: the directional tag scanner of [parser.ts]

    A shallow embedding of [Parser] (hotkey-tag-navigation/src/parser.ts)
    together with the part of the editor it talks to, followed by the
    properties of the scanner.

    Conventions.
    - JavaScript strings are sequences of code units that the scanner only
      compares for equality; a text is a [list ascii].
    - Offsets are [Z]: the source stores [-1] in undetermined fields and
      computes [from - 1] as the origin of a backward scan.
    - The editor is an external service.  Its line/column positions are in
      bijection with linear offsets ([posToOffset], [offsetToPos]), so a
      position is represented by its offset.
    - Logging ([logger.debug], [console.log]) does not act on the parser or
      on the editor and is left out. *)

From Stdlib Require Import ZArith Ascii String List Bool Lia.
From stdpp Require Import base list list_numbers strings.

Local Open Scope Z_scope.

(** ** JavaScript string primitives *)

Abbreviation text := (list ascii).

Definition txt (s : string) : text := list_ascii_of_string s.

Definition len (s : text) : Z := Z.of_nat (length s).

Fixpoint prefixb (d s : text) : bool :=
  match d, s with
  | [], _ => true
  | _ :: _, [] => false
  | a :: d', b :: s' => bool_decide (a = b) && prefixb d' s'
  end.

(** [s.startsWith(d, i)]: the position is clamped to [0 .. length s];
    [Z.to_nat] sends negative positions to [0] and [drop] past the end
    leaves the empty text. *)
Definition startsWith (s d : text) (i : Z) : bool :=
  prefixb d (drop (Z.to_nat i) s).

Definition clamp (s : text) (i : Z) : Z := Z.max 0 (Z.min i (len s)).

(** [s.substring(a, b)]: both arguments are clamped, and swapped when
    [a > b]. *)
Definition substring (s : text) (a b : Z) : text :=
  let a' := clamp s a in
  let b' := clamp s b in
  let lo := Z.min a' b' in
  let hi := Z.max a' b' in
  take (Z.to_nat (hi - lo)) (drop (Z.to_nat lo) s).

(** [s.endsWith(d)] *)
Definition endsWith (s d : text) : bool :=
  (length d <=? length s)%nat && startsWith s d (len s - len d).

(** [a.push(x)] and [a.pop()] on an array used as a stack: the top is the
    last element. *)
Definition push (a : list Z) (x : Z) : list Z := a ++ [x].
Definition pop (a : list Z) : list Z := removelast a.

(** ** Data model *)

Record TagStruct := mkTagStruct {
  parentStart : Z;
  parentEnd : Z;
  innerStart : Z;
  innerEnd : Z;
  content : text;
  openingTagPos : list Z;
  closingTagPos : list Z
}.

Record AdvanceTagSettings := mkSettings {
  openingTagDelimiter : text;
  closingTagDelimiter : text;
  showDebugInfo : bool;
  wrapAroundEnabled : bool;
  selectInnerByDefault : bool
}.

Record Parser := mkParser {
  settings : AdvanceTagSettings;
  openingDelimiter : text;
  closingDelimiter : text;
  tagStruct : option TagStruct
}.

(** The editor: the buffer and the current selection, [selFrom <= selTo]
    being the offsets returned for [getCursor('from')] and
    [getCursor('to')]. *)
Record Editor := mkEditor {
  value : text;
  selFrom : Z;
  selTo : Z
}.

(** ** Editor operations used by the parser

    Offsets handed to the editor outside the buffer are clipped to it. *)

Definition setSelection (e : Editor) (anchor head : Z) : Editor :=
  let a := clamp (value e) anchor in
  let h := clamp (value e) head in
  {| value := value e; selFrom := Z.min a h; selTo := Z.max a h |}.

Definition setCursor (e : Editor) (pos : Z) : Editor :=
  setSelection e pos pos.

Definition getSelection (e : Editor) : text :=
  substring (value e) (selFrom e) (selTo e).

(** [replaceRange(t, from, to)] rewrites the buffer; the selection is
    carried over, clipped to the new buffer. *)
Definition replaceRange (e : Editor) (t : text) (from to : Z) : Editor :=
  let a := clamp (value e) from in
  let b := clamp (value e) to in
  let v := take (Z.to_nat a) (value e) ++ t ++ drop (Z.to_nat b) (value e) in
  {| value := v; selFrom := clamp v (selFrom e); selTo := clamp v (selTo e) |}.

(** ** Parser: constructor, setters and accessors *)

Definition newParser (s : AdvanceTagSettings) (o c : text) : Parser :=
  {| settings := s; openingDelimiter := o; closingDelimiter := c;
     tagStruct := None |}.

Definition with_tagStruct (p : Parser) (ts : option TagStruct) : Parser :=
  {| settings := settings p; openingDelimiter := openingDelimiter p;
     closingDelimiter := closingDelimiter p; tagStruct := ts |}.

Definition reset (p : Parser) : Parser := with_tagStruct p None.

Definition setOpeningDelimiter (p : Parser) (d : text) : Parser :=
  {| settings := settings p; openingDelimiter := d;
     closingDelimiter := closingDelimiter p; tagStruct := tagStruct p |}.

Definition setClosingDelimiter (p : Parser) (d : text) : Parser :=
  {| settings := settings p; openingDelimiter := openingDelimiter p;
     closingDelimiter := d; tagStruct := tagStruct p |}.

Definition getTagPosition (p : Parser) : option (Z * Z) :=
  match tagStruct p with
  | Some t => Some (parentStart t, parentEnd t)
  | None => None
  end.

Definition getInnerTagPosition (p : Parser) : option (Z * Z) :=
  match tagStruct p with
  | Some t => Some (innerStart t, innerEnd t)
  | None => None
  end.

Definition getTagContent (p : Parser) : option text :=
  match tagStruct p with
  | Some t => Some (content t)
  | None => None
  end.

Definition getInnerTagContent (p : Parser) : option text :=
  match tagStruct p with
  | Some t => Some (content t)
  | None => None
  end.

Definition checkInTag (p : Parser) (e : Editor) : bool :=
  if 0 <? selTo e - selFrom e then
    let selectedText := getSelection e in
    startsWith selectedText (openingDelimiter p) 0
    && endsWith selectedText (closingDelimiter p)
  else false.

Definition highlightTag (p : Parser) (e : Editor) : bool * Editor :=
  match tagStruct p with
  | Some t => (true, setSelection e (parentStart t) (parentEnd t))
  | None => (false, e)
  end.

Definition highlightInnerTag (p : Parser) (e : Editor) : bool * Editor :=
  match tagStruct p with
  | Some t => (true, setSelection e (innerStart t) (innerEnd t))
  | None => (false, e)
  end.

(** [acceptDefaultText] leaves the parser as it is: only the editor
    changes. *)
Definition acceptDefaultText (p : Parser) (e : Editor) : bool * Editor :=
  match tagStruct p with
  | Some t =>
      let innerContent := content t in
      let e1 := replaceRange e innerContent (parentStart t) (parentEnd t) in
      let startPos := innerStart t - len (openingDelimiter p) in
      let endPos := innerEnd t - len (closingDelimiter p) in
      (true, setSelection e1 startPos endPos)
  | None => (false, e)
  end.

(** ** The scanning loop of [parse] *)

(** What one iteration of the [for] loop leaves behind: either the loop
    goes on with the local [initTag] and the field [this.tagStruct], or the
    iteration executed [return true]. *)
Inductive Step :=
  | Next (initTag : bool) (ts : option TagStruct)
  | Found (ts : option TagStruct).

Definition complete (cont : text) (t : TagStruct) : TagStruct :=
  {| parentStart := parentStart t; parentEnd := parentEnd t;
     innerStart := innerStart t; innerEnd := innerEnd t;
     content := substring cont (innerStart t) (innerEnd t);
     openingTagPos := openingTagPos t; closingTagPos := closingTagPos t |}.

(** Pairing off, common to both delimiter branches once both stacks have
    been popped. *)
Definition popped (cont : text) (initTag : bool) (t : TagStruct) : Step :=
  let t' := {| parentStart := parentStart t; parentEnd := parentEnd t;
               innerStart := innerStart t; innerEnd := innerEnd t;
               content := content t;
               openingTagPos := pop (openingTagPos t);
               closingTagPos := pop (closingTagPos t) |} in
  if (length (openingTagPos t') =? 0)%nat && (length (closingTagPos t') =? 0)%nat
  then Found (Some (complete cont t'))
  else Next initTag (Some t').

Definition onOpening (o : text) (cont : text) (forward : bool) (i : Z)
    (initTag : bool) (ts : option TagStruct) : Step :=
  if negb initTag && negb forward then Next initTag ts
  else if negb initTag && forward then
    Next true (Some {| parentStart := i; parentEnd := -1;
                       innerStart := i + len o; innerEnd := -1;
                       content := [];
                       openingTagPos := [i]; closingTagPos := [] |})
  else
    match ts with
    | None => Next initTag None
    | Some t =>
        let t1 := {| parentStart := if forward then parentStart t else i;
                     parentEnd := parentEnd t;
                     innerStart := if forward then innerStart t else i + len o;
                     innerEnd := innerEnd t;
                     content := content t;
                     openingTagPos := push (openingTagPos t) i;
                     closingTagPos := closingTagPos t |} in
        if (0 <? length (closingTagPos t1))%nat
        then popped cont initTag t1
        else Next initTag (Some t1)
    end.

Definition onClosing (c : text) (cont : text) (forward : bool) (i : Z)
    (initTag : bool) (ts : option TagStruct) : Step :=
  if negb initTag && forward then Next initTag ts
  else if negb initTag && negb forward then
    Next true (Some {| parentStart := -1; parentEnd := i + len c;
                       innerStart := -1; innerEnd := i;
                       content := [];
                       openingTagPos := []; closingTagPos := [i] |})
  else
    match ts with
    | None => Next initTag None
    | Some t =>
        let t1 := {| parentStart := parentStart t;
                     parentEnd := if forward then i + len c else parentEnd t;
                     innerStart := innerStart t;
                     innerEnd := if forward then i else innerEnd t;
                     content := content t;
                     openingTagPos := openingTagPos t;
                     closingTagPos := push (closingTagPos t) i |} in
        if (0 <? length (openingTagPos t1))%nat
        then popped cont initTag t1
        else Next initTag (Some t1)
    end.

(** The body of the loop at index [i]. *)
Definition body (p : Parser) (cont : text) (forward : bool) (i : Z)
    (initTag : bool) (ts : option TagStruct) : Step :=
  if startsWith cont (openingDelimiter p) i
  then onOpening (openingDelimiter p) cont forward i initTag ts
  else if startsWith cont (closingDelimiter p) i
  then onClosing (closingDelimiter p) cont forward i initTag ts
  else Next initTag ts.

(** The values taken by [i] in
    [for (let i = cursorIndex; forward ? i < n : i >= 0; i += direction)]
    when no iteration returns: [k] values from [i] in steps of
    [direction]. *)
Fixpoint walk (k : nat) (i direction : Z) : list Z :=
  match k with
  | O => []
  | S k' => i :: walk k' (i + direction) direction
  end.

Definition direction (forward : bool) : Z := if forward then 1 else -1.

Definition trips (forward : bool) (cursorIndex n : Z) : nat :=
  if forward then Z.to_nat (n - cursorIndex) else Z.to_nat (cursorIndex + 1).

Definition scan_indices (forward : bool) (cursorIndex n : Z) : list Z :=
  walk (trips forward cursorIndex n) cursorIndex (direction forward).

(** Outcome of the loop: whether an iteration returned [true], the field
    [this.tagStruct] at that point, and the indices at which the body was
    run, in order. *)
Record Scan := mkScan {
  found : bool;
  state : option TagStruct;
  tested : list Z
}.

Fixpoint loop (p : Parser) (cont : text) (forward : bool) (idxs : list Z)
    (initTag : bool) (ts : option TagStruct) : Scan :=
  match idxs with
  | [] => {| found := false; state := ts; tested := [] |}
  | i :: rest =>
      match body p cont forward i initTag ts with
      | Found ts' => {| found := true; state := ts'; tested := [i] |}
      | Next initTag' ts' =>
          let r := loop p cont forward rest initTag' ts' in
          {| found := found r; state := state r; tested := i :: tested r |}
      end
  end.

(** ** [parse] *)

(** What a call of [parse] returns and leaves behind: the boolean, the
    parser and the editor after the call and, for the properties about the
    scan origin, the indices at which the loop body was run. *)
Record Run := mkRun {
  result : bool;
  parser' : Parser;
  editor' : Editor;
  visited : list Z
}.

Definition cursorIndex (forward : bool) (e : Editor) : Z :=
  if forward then selTo e else selFrom e - 1.

(** The body of [parse]; [self] stands for the recursive call
    [this.parse(editor, forward, true)]. *)
Definition parse_body (self : Parser -> Editor -> bool -> Run)
    (p : Parser) (e : Editor) (forward wrapCheck : bool) : Run :=
  if wrapCheck && bool_decide (tagStruct p = None) then
    {| result := false; parser' := p; editor' := e; visited := [] |}
  else
    let cont := value e in
    let wrapAround := wrapAroundEnabled (settings p) in
    let r := loop p cont forward
               (scan_indices forward (cursorIndex forward e) (len cont))
               false (tagStruct p) in
    if found r then
      {| result := true; parser' := with_tagStruct p (state r);
         editor' := e; visited := tested r |}
    else if bool_decide (state r = None) && wrapAround && negb wrapCheck then
      let e1 := if forward then setCursor e 0
                else setCursor e (len (value e)) in
      let w := self (with_tagStruct p (state r)) e1 forward in
      {| result := result w; parser' := parser' w; editor' := editor' w;
         visited := tested r ++ visited w |}
    else
      {| result := false; parser' := with_tagStruct p None;
         editor' := e; visited := tested r |}.

(** The retry: a call with [wrapCheck = true] never reaches the recursive
    call, whose condition asks for [!wrapCheck]. *)
Definition parse_retry (p : Parser) (e : Editor) (forward : bool) : Run :=
  parse_body (fun p' e' _ =>
                {| result := false; parser' := p'; editor' := e';
                   visited := [] |})
             p e forward true.

Definition parse (p : Parser) (e : Editor) (forward wrapCheck : bool) : Run :=
  parse_body parse_retry p e forward wrapCheck.

(** ** Commands of the plugin ([main.ts]) that go through the parser *)

(** [advance-to-next-tag] / [advance-to-previous-tag]: parse, then
    highlight what was found. *)
Definition advance (p : Parser) (e : Editor) (forward : bool)
    : bool * Parser * Editor :=
  let r := parse p e forward false in
  if result r
  then (true, parser' r, snd (highlightTag (parser' r) (editor' r)))
  else (false, parser' r, editor' r).

(** [keep-tag-default-content]: "Remove tag at cursor keeping the default
    content". *)
Definition keepTagDefaultContent (p : Parser) (e : Editor)
    : bool * Parser * Editor :=
  if checkInTag p e then
    let '(ok, e1) := acceptDefaultText p e in (ok, p, e1)
  else
    let r := parse p e true false in
    if result r then
      let '(ok, e1) := acceptDefaultText (parser' r) (editor' r) in
      (ok, parser' r, e1)
    else (false, parser' r, editor' r).

(** ** Vocabulary of the properties *)

(** The offsets of the buffer at which a delimiter occurs. *)
Definition occurrences (s d : text) : list Z :=
  filter (fun i => startsWith s d i = true) (walk (length s) 0 1).

(** A selection the editor can report. *)
Definition valid_selection (e : Editor) : Prop :=
  0 <= selFrom e /\ selFrom e <= selTo e /\ selTo e <= len (value e).

(** The closing delimiter can begin [k] characters into the opening one:
    what is left of the opening delimiter from [k] on and the closing
    delimiter agree as far as both go. *)
Definition overlap_at (o c : text) (k : nat) : bool :=
  prefixb (drop k o) c || prefixb c (drop k o).

Definition overlap_free (o c : text) : bool :=
  forallb (fun k => negb (overlap_at o c k)) (seq 1 (length o - 1)).

(** The buffer holds one region and nothing else that looks like a
    delimiter: the opening delimiter occurs at [o] only, the closing one at
    [c] only, after the opening one. *)
Definition one_region (s od cd : text) (o c : Z) : Prop :=
  od <> [] /\ cd <> [] /\
  occurrences s od = [o] /\ occurrences s cd = [c] /\ o + len od <= c.

(** Shape [O O C C]: two opening delimiters followed by two closing ones. *)
Definition nested_regions (s od cd : text) (o1 o2 c1 c2 : Z) : Prop :=
  occurrences s od = [o1; o2] /\ occurrences s cd = [c1; c2] /\
  o1 < o2 /\ o2 < c1 /\ c1 < c2.

(** The order of the four offsets of a resolved region:
    [parentStart < innerStart <= innerEnd < parentEnd]. *)
Definition bounds_ordered (t : TagStruct) : Prop :=
  parentStart t < innerStart t /\ innerStart t <= innerEnd t /\
  innerEnd t < parentEnd t.

(** The Match State of the region whose opening delimiter is at [o] and
    whose closing delimiter is at [c]. *)
Definition region (p : Parser) (cont : text) (o c : Z) : TagStruct :=
  {| parentStart := o;
     parentEnd := c + len (closingDelimiter p);
     innerStart := o + len (openingDelimiter p);
     innerEnd := c;
     content := substring cont (o + len (openingDelimiter p)) c;
     openingTagPos := [];
     closingTagPos := [] |}.

(** Neither delimiter occurs at [i]. *)
Definition quiet (p : Parser) (cont : text) (i : Z) : Prop :=
  startsWith cont (openingDelimiter p) i = false /\
  startsWith cont (closingDelimiter p) i = false.

(** In the scanned part of the buffer there is no delimiter that starts a
    region in the direction of the scan: no opening delimiter on the way
    forward, no closing delimiter on the way backward. *)
Definition no_initiator (p : Parser) (e : Editor) (forward : bool) : bool :=
  forallb
    (fun i => negb (startsWith (value e)
                      (if forward then openingDelimiter p
                       else closingDelimiter p) i))
    (scan_indices forward (cursorIndex forward e) (len (value e))).

(** ** The scan of one call, and its invariants *)

(** The first scan of a call that is not a retry. *)
Definition first_scan (p : Parser) (e : Editor) (forward : bool) : Scan :=
  loop p (value e) forward
    (scan_indices forward (cursorIndex forward e) (len (value e)))
    false (tagStruct p).

(** What the caller sees of a scan: the answer and the Match State. *)
Definition outcome (r : Scan) : bool * option TagStruct := (found r, state r).

(** What a successful scan leaves in the Match State: it spans an opening
    delimiter at [parentStart] and a closing delimiter at [innerEnd],
    further on, and both stacks are empty. *)
Record resolved (p : Parser) (cont : text) (t : TagStruct) : Prop := {
  res_open : startsWith cont (openingDelimiter p) (parentStart t) = true;
  res_close : startsWith cont (closingDelimiter p) (innerEnd t) = true;
  res_nonneg : 0 <= parentStart t;
  res_order : parentStart t < innerEnd t;
  res_innerStart : innerStart t = parentStart t + len (openingDelimiter p);
  res_parentEnd : parentEnd t = innerEnd t + len (closingDelimiter p);
  res_content : content t = substring cont (innerStart t) (innerEnd t);
  res_opening : openingTagPos t = [];
  res_closing : closingTagPos t = []
}.

(** Forward, once [initTag] is set: the state was created at an opening
    delimiter behind the current index, some opening delimiter is
    unmatched and no closing delimiter is pending. *)
Definition fwd_inv (p : Parser) (cont : text) (i : Z)
    (initTag : bool) (ts : option TagStruct) : Prop :=
  initTag = true ->
  exists t, ts = Some t /\
    startsWith cont (openingDelimiter p) (parentStart t) = true /\
    0 <= parentStart t < i /\
    innerStart t = parentStart t + len (openingDelimiter p) /\
    openingTagPos t <> [] /\ closingTagPos t = [].

(** Backward, the mirror image. *)
Definition bwd_inv (p : Parser) (cont : text) (i : Z)
    (initTag : bool) (ts : option TagStruct) : Prop :=
  initTag = true ->
  exists t, ts = Some t /\
    startsWith cont (closingDelimiter p) (innerEnd t) = true /\
    i < innerEnd t /\
    parentEnd t = innerEnd t + len (closingDelimiter p) /\
    closingTagPos t <> [] /\ openingTagPos t = [].

(** ** The plugin as [main.ts] sets it up *)

(** [DEFAULT_SETTINGS] of settings.ts. *)
Definition DEFAULT_SETTINGS : AdvanceTagSettings :=
  {| openingTagDelimiter := txt "|<"; closingTagDelimiter := txt ">|";
     showDebugInfo := false; wrapAroundEnabled := true;
     selectInnerByDefault := false |}.

(** The wrap-around toggle of the settings tab. *)
Definition with_wrapAround (s : AdvanceTagSettings) (b : bool)
    : AdvanceTagSettings :=
  {| openingTagDelimiter := openingTagDelimiter s;
     closingTagDelimiter := closingTagDelimiter s;
     showDebugInfo := showDebugInfo s; wrapAroundEnabled := b;
     selectInnerByDefault := selectInnerByDefault s |}.

(** [onload]: the parser is built from the settings. *)
Definition pluginParser (s : AdvanceTagSettings) : Parser :=
  newParser s (openingTagDelimiter s) (closingTagDelimiter s).

(** ** More of [main.ts], and the nesting depth *)

(** [select-inner-content]: parse unless the selection is already a tag,
    then select the inner span.  [parseCheck] is set to [true] on every
    path, so the inner highlight is always attempted and the "not inside a
    tag" notice is never reached. *)
Definition selectInnerContent (p : Parser) (e : Editor) : Parser * Editor :=
  let '(p1, e1) :=
    if negb (checkInTag p e)
    then let r := parse p e true false in (parser' r, editor' r)
    else (p, e) in
  (p1, snd (highlightInnerTag p1 e1)).

(** The parser reads [this.settings] at each call; the same parser under
    other settings. *)
Definition with_settings (p : Parser) (s : AdvanceTagSettings) : Parser :=
  {| settings := s; openingDelimiter := openingDelimiter p;
     closingDelimiter := closingDelimiter p; tagStruct := tagStruct p |}.

(** How the loop reads index [i]: an opening delimiter (tested first)
    counts [+1], a closing delimiter [-1], anything else [0]. *)
Definition delta (p : Parser) (cont : text) (i : Z) : Z :=
  if startsWith cont (openingDelimiter p) i then 1
  else if startsWith cont (closingDelimiter p) i then -1
  else 0.

(** The sum of [delta] over a list of indices. *)
Definition depth (p : Parser) (cont : text) (l : list Z) : Z :=
  foldr (fun i acc => delta p cont i + acc) 0 l.

(** Opening minus closing delimiters over the indices [a .. b]. *)
Definition nesting (p : Parser) (cont : text) (a b : Z) : Z :=
  depth p cont (walk (Z.to_nat (b - a + 1)) a 1).

(** ** Tracking the nesting depth through a scan *)

(** Forward, [n >= 1] indices after the opening delimiter at [ps]: the
    opening stack is as high as the nesting depth, which has stayed
    positive. *)
Definition fwd_track (p : Parser) (cont : text) (ps : Z) (n : nat)
    (ts : option TagStruct) : Prop :=
  exists t, ts = Some t /\ parentStart t = ps /\ closingTagPos t = [] /\
    Z.of_nat (length (openingTagPos t)) = depth p cont (walk n ps 1) /\
    forall m, (1 <= m <= n)%nat -> 0 < depth p cont (walk m ps 1).

(** What a forward scan has found when it stops: the closing delimiter at
    [ps + m] brings the nesting depth back to zero for the first time. *)
Definition fwd_matched (p : Parser) (cont : text) (ps : Z)
    (ts : option TagStruct) : Prop :=
  exists t m, ts = Some t /\ parentStart t = ps /\
    innerEnd t = ps + Z.of_nat m /\ (1 <= m)%nat /\
    depth p cont (walk (S m) ps 1) = 0 /\
    forall j, (1 <= j <= m)%nat -> 0 < depth p cont (walk j ps 1).

(** Backward, [n >= 1] indices from the closing delimiter at [ie] down:
    the closing stack is as high as closing delimiters outnumber opening
    ones, which they have done all along. *)
Definition bwd_track (p : Parser) (cont : text) (ie : Z) (n : nat)
    (ts : option TagStruct) : Prop :=
  exists t, ts = Some t /\ innerEnd t = ie /\ openingTagPos t = [] /\
    Z.of_nat (length (closingTagPos t)) = - depth p cont (walk n ie (-1)) /\
    forall m, (1 <= m <= n)%nat -> depth p cont (walk m ie (-1)) < 0.

(** What a backward scan has found when it stops: the opening delimiter at
    [ie - m] balances the count for the first time. *)
Definition bwd_matched (p : Parser) (cont : text) (ie : Z)
    (ts : option TagStruct) : Prop :=
  exists t m, ts = Some t /\ innerEnd t = ie /\
    parentStart t = ie - Z.of_nat m /\ (1 <= m)%nat /\
    depth p cont (walk (S m) ie (-1)) = 0 /\
    forall j, (1 <= j <= m)%nat -> depth p cont (walk j ie (-1)) < 0.

(** The buffer around a resolved region, cut at its four offsets. *)
Definition framed (p : Parser) (cont : text) (t : TagStruct)
    (pre post : text) : Prop :=
  cont = pre ++ openingDelimiter p ++ content t ++ closingDelimiter p ++ post /\
  len pre = parentStart t /\
  parentStart t + len (openingDelimiter p) = innerStart t /\
  innerStart t + len (content t) = innerEnd t /\
  innerEnd t + len (closingDelimiter p) = parentEnd t.

(** * Properties *)

(** ** Strings *)

Lemma prefixb_prefix (d s : text) : prefixb d s = true <-> d `prefix_of` s.
Proof.
  revert s; induction d as [|a d IH]; intros s; simpl.
  - split; [intros _; apply prefix_nil | reflexivity].
  - destruct s as [|b s].
    + split; [discriminate|]. intros [k Hk]. discriminate.
    + rewrite andb_true_iff, bool_decide_eq_true, IH. split.
      * intros [-> H]. by apply prefix_cons.
      * intros H. split; [by eapply prefix_cons_inv_1 | by eapply prefix_cons_inv_2].
Qed.

Lemma len_nonneg (s : text) : 0 <= len s.
Proof. unfold len; lia. Qed.

Lemma len_pos (s : text) : s <> [] -> 0 < len s.
Proof. destruct s; [congruence|]. unfold len; simpl; lia. Qed.

Lemma len_app (s t : text) : len (s ++ t) = len s + len t.
Proof. unfold len. rewrite length_app. lia. Qed.

Lemma startsWith_in_range (s d : text) (i : Z) :
  d <> [] -> 0 <= i -> startsWith s d i = true -> i + len d <= len s.
Proof.
  unfold startsWith, len. intros Hd Hi H.
  apply prefixb_prefix, prefix_length in H.
  rewrite length_drop in H. destruct d; [congruence|]. simpl in *. lia.
Qed.

(** Two occurrences that overlap: the tail of the first and the second
    agree on their common part. *)
Lemma startsWith_overlap (s o c : text) (i j : Z) :
  0 <= i -> i < j -> j < i + len o ->
  startsWith s o i = true -> startsWith s c j = true ->
  overlap_at o c (Z.to_nat (j - i)) = true.
Proof.
  unfold startsWith, overlap_at, len. intros Hi Hij Hj Ho Hc.
  apply prefixb_prefix in Ho. apply prefixb_prefix in Hc.
  destruct Ho as [r Hr].
  assert (Hd : drop (Z.to_nat (j - i)) o `prefix_of` drop (Z.to_nat j) s).
  { replace (Z.to_nat j) with (Z.to_nat i + Z.to_nat (j - i))%nat by lia.
    rewrite <- drop_drop, Hr, drop_app_le by lia. by eexists. }
  apply orb_true_iff.
  destruct (prefix_weak_total _ _ _ Hd Hc) as [H|H];
    [left | right]; by apply prefixb_prefix.
Qed.

Lemma overlap_free_spec (o c : text) (k : nat) :
  overlap_free o c = true -> (0 < k < length o)%nat ->
  overlap_at o c k = false.
Proof.
  unfold overlap_free. rewrite forallb_forall. intros H Hk.
  apply negb_true_iff, H, in_seq. lia.
Qed.

(** ** The index walk *)

Lemma walk_app (a b : nat) (i d : Z) :
  walk (a + b) i d = walk a i d ++ walk b (i + Z.of_nat a * d) d.
Proof.
  revert i; induction a as [|a IH]; intros i; simpl.
  - f_equal. change (Z.of_nat 0) with 0. ring.
  - rewrite IH. do 3 f_equal. rewrite Nat2Z.inj_succ. ring.
Qed.

Lemma elem_of_walk_up (k : nat) (i x : Z) :
  x ∈ walk k i 1 <-> i <= x < i + Z.of_nat k.
Proof.
  revert i; induction k as [|k IH]; intros i; simpl.
  - rewrite elem_of_nil. lia.
  - rewrite elem_of_cons, IH. lia.
Qed.

Lemma elem_of_walk_down (k : nat) (i x : Z) :
  x ∈ walk k i (-1) <-> i - Z.of_nat k < x <= i.
Proof.
  revert i; induction k as [|k IH]; intros i; simpl.
  - rewrite elem_of_nil. lia.
  - rewrite elem_of_cons, IH. lia.
Qed.

(** The indices are those, and only those, that pass the loop test. *)
Lemma elem_of_scan_indices (forward : bool) (c n x : Z) :
  x ∈ scan_indices forward c n <->
  if forward then c <= x < n else 0 <= x <= c.
Proof.
  unfold scan_indices, trips, direction. destruct forward.
  - rewrite elem_of_walk_up. lia.
  - rewrite elem_of_walk_down. lia.
Qed.

Lemma scan_indices_up_split (c n x : Z) :
  c <= x < n ->
  scan_indices true c n =
  walk (Z.to_nat (x - c)) c 1 ++ x :: walk (Z.to_nat (n - x - 1)) (x + 1) 1.
Proof.
  intros H. unfold scan_indices, trips, direction.
  replace (Z.to_nat (n - c))
    with (Z.to_nat (x - c) + S (Z.to_nat (n - x - 1)))%nat by lia.
  rewrite walk_app. simpl. f_equal. f_equal; [lia | f_equal; lia].
Qed.

Lemma scan_indices_down_split (c x : Z) (n : Z) :
  0 <= x <= c ->
  scan_indices false c n =
  walk (Z.to_nat (c - x)) c (-1) ++ x :: walk (Z.to_nat x) (x - 1) (-1).
Proof.
  intros H. unfold scan_indices, trips, direction.
  replace (Z.to_nat (c + 1))
    with (Z.to_nat (c - x) + S (Z.to_nat x))%nat by lia.
  rewrite walk_app. simpl. f_equal. f_equal; [lia | f_equal; lia].
Qed.

Lemma walk_up_split (k : nat) (i x : Z) :
  i <= x < i + Z.of_nat k ->
  walk k i 1 =
  walk (Z.to_nat (x - i)) i 1
    ++ x :: walk (Z.to_nat (i + Z.of_nat k - x - 1)) (x + 1) 1.
Proof.
  intros H.
  replace k with (Z.to_nat (x - i) + S (Z.to_nat (i + Z.of_nat k - x - 1)))%nat
    at 1 by lia.
  rewrite walk_app. simpl. f_equal. f_equal; [lia | f_equal; lia].
Qed.

Lemma walk_down_split (k : nat) (i x : Z) :
  i - Z.of_nat k < x <= i ->
  walk k i (-1) =
  walk (Z.to_nat (i - x)) i (-1)
    ++ x :: walk (Z.to_nat (x - (i - Z.of_nat k) - 1)) (x - 1) (-1).
Proof.
  intros H.
  replace k with (Z.to_nat (i - x) + S (Z.to_nat (x - (i - Z.of_nat k) - 1)))%nat
    at 1 by lia.
  rewrite walk_app. simpl. f_equal. f_equal; [lia | f_equal; lia].
Qed.

(** ** Occurrences *)

Lemma elem_of_occurrences (s d : text) (i : Z) :
  i ∈ occurrences s d <-> startsWith s d i = true /\ 0 <= i < len s.
Proof.
  unfold occurrences, len. rewrite list_elem_of_filter, elem_of_walk_up.
  rewrite Z.add_0_l. reflexivity.
Qed.

Lemma occurrences_none (s d : text) (l : list Z) (i : Z) :
  occurrences s d = l -> 0 <= i < len s -> i ∉ l -> startsWith s d i = false.
Proof.
  intros <- Hi Hn. destruct (startsWith s d i) eqn:E; [|done].
  exfalso. apply Hn, elem_of_occurrences. done.
Qed.

Lemma occurrences_some (s d : text) (l : list Z) (i : Z) :
  occurrences s d = l -> i ∈ l -> startsWith s d i = true /\ 0 <= i < len s.
Proof. intros <-. apply elem_of_occurrences. Qed.

(** ** The loop, one index at a time *)

Lemma body_quiet p cont forward i initTag ts :
  quiet p cont i -> body p cont forward i initTag ts = Next initTag ts.
Proof. intros [Ho Hc]. unfold body. by rewrite Ho, Hc. Qed.

Lemma loop_next p cont forward i rest initTag ts initTag' ts' :
  body p cont forward i initTag ts = Next initTag' ts' ->
  loop p cont forward (i :: rest) initTag ts =
  let r := loop p cont forward rest initTag' ts' in
  {| found := found r; state := state r; tested := i :: tested r |}.
Proof. intros H. simpl. by rewrite H. Qed.

Lemma loop_found p cont forward i rest initTag ts ts' :
  body p cont forward i initTag ts = Found ts' ->
  loop p cont forward (i :: rest) initTag ts =
  {| found := true; state := ts'; tested := [i] |}.
Proof. intros H. simpl. by rewrite H. Qed.

(** A stretch of indices on which the body changes nothing is skipped. *)
Lemma loop_skip p cont forward l1 l2 initTag ts :
  (forall i, i ∈ l1 -> body p cont forward i initTag ts = Next initTag ts) ->
  loop p cont forward (l1 ++ l2) initTag ts =
  let r := loop p cont forward l2 initTag ts in
  {| found := found r; state := state r; tested := l1 ++ tested r |}.
Proof.
  induction l1 as [|i l1 IH]; intros H; simpl.
  - by destruct (loop p cont forward l2 initTag ts).
  - rewrite H by (apply elem_of_cons; by left).
    rewrite IH by (intros j Hj; apply H, elem_of_cons; by right).
    reflexivity.
Qed.

Lemma loop_skip_all p cont forward l initTag ts :
  (forall i, i ∈ l -> body p cont forward i initTag ts = Next initTag ts) ->
  loop p cont forward l initTag ts =
  {| found := false; state := ts; tested := l |}.
Proof.
  intros H. rewrite <- (app_nil_r l) at 1. rewrite loop_skip by done.
  simpl. by rewrite app_nil_r.
Qed.

(** ** [parse]: the recursion and its one level of depth *)

Lemma parse_retry_guard p e forward :
  tagStruct p = None ->
  parse_retry p e forward =
  {| result := false; parser' := p; editor' := e; visited := [] |}.
Proof.
  intros H. unfold parse_retry, parse_body.
  rewrite bool_decide_eq_true_2 by done. reflexivity.
Qed.

Lemma parse_body_retry self p e forward :
  parse_body self p e forward true = parse_retry p e forward.
Proof.
  unfold parse_retry, parse_body.
  destruct (true && bool_decide (tagStruct p = None)); [done|].
  destruct (found _); [done|].
  by rewrite andb_false_r.
Qed.

(** [parse] satisfies the recursive equation of the source. *)
Lemma parse_unfold p e forward wrapCheck :
  parse p e forward wrapCheck =
  parse_body (fun p' e' f' => parse p' e' f' true) p e forward wrapCheck.
Proof.
  unfold parse at 1. unfold parse_body.
  destruct (wrapCheck && bool_decide (tagStruct p = None)); [done|].
  destruct (found _); [done|].
  destruct (_ && _ && _); [|done].
  unfold parse. by rewrite parse_body_retry.
Qed.

(** A call that is not a retry, without the recursion: the retry it may
    start is stopped by the guard at once, because it is started only when
    the Match State is absent. *)
Lemma parse_first p e forward :
  parse p e forward false =
  let r := first_scan p e forward in
  if found r then
    {| result := true; parser' := with_tagStruct p (state r);
       editor' := e; visited := tested r |}
  else if bool_decide (state r = None) && wrapAroundEnabled (settings p) then
    {| result := false; parser' := with_tagStruct p None;
       editor' := if forward then setCursor e 0
                  else setCursor e (len (value e));
       visited := tested r |}
  else
    {| result := false; parser' := with_tagStruct p None;
       editor' := e; visited := tested r |}.
Proof.
  unfold parse, parse_body, first_scan. simpl.
  destruct (found _); [done|].
  rewrite andb_true_r.
  destruct (bool_decide (state _ = None)) eqn:E; simpl; [|done].
  destruct (wrapAroundEnabled _); [|done].
  apply bool_decide_eq_true_1 in E. rewrite E.
  rewrite parse_retry_guard by done. simpl. by rewrite app_nil_r.
Qed.

(** Whether [parse] answers [true] is decided by the scan from the cursor
    alone; the wrap-around setting has no part in it. *)
Lemma parse_result p e forward wrapCheck :
  result (parse p e forward wrapCheck) =
  negb (wrapCheck && bool_decide (tagStruct p = None))
  && found (first_scan p e forward).
Proof.
  destruct wrapCheck.
  - unfold parse. rewrite parse_body_retry.
    unfold parse_retry, parse_body, first_scan.
    destruct (true && bool_decide (tagStruct p = None)); [done|]. simpl.
    destruct (found _); [done|]. by rewrite andb_false_r.
  - rewrite parse_first. simpl.
    destruct (found _); [done|]. by destruct (_ && _).
Qed.

(** ** A successful scan leaves a resolved Match State *)

Lemma pop_push (a : list Z) (x : Z) : pop (push a x) = a.
Proof. apply removelast_last. Qed.

Lemma push_not_nil (a : list Z) (x : Z) : push a x <> [].
Proof. unfold push. by destruct a. Qed.

Lemma length_pos_not_nil (a : list Z) : a <> [] -> (0 <? length a)%nat = true.
Proof. destruct a; [done|]. reflexivity. Qed.

Lemma length_eqb_0 (a : list Z) : (length a =? 0)%nat = true <-> a = [].
Proof. destruct a; simpl; split; done. Qed.

Lemma length_eqb_0_false (a : list Z) : (length a =? 0)%nat = false <-> a <> [].
Proof. destruct a; simpl; split; done. Qed.

Lemma body_fwd_inv p cont i initTag ts :
  0 <= i -> fwd_inv p cont i initTag ts ->
  match body p cont true i initTag ts with
  | Next initTag' ts' => fwd_inv p cont (i + 1) initTag' ts'
  | Found ts' => exists t, ts' = Some t /\ resolved p cont t
  end.
Proof.
  intros Hi Hinv. unfold body.
  destruct (startsWith cont (openingDelimiter p) i) eqn:Ho.
  - (* an opening delimiter *)
    unfold onOpening. destruct initTag; simpl.
    + destruct (Hinv eq_refl) as (t & -> & Hs & Hps & His & Hop & Hcl).
      rewrite Hcl. simpl. intros _. eexists; split; [done|]. simpl.
      repeat split; try done; try lia. apply push_not_nil.
    + intros _. eexists; split; [done|]. simpl.
      repeat split; try done; lia.
  - destruct (startsWith cont (closingDelimiter p) i) eqn:Hc.
    + (* a closing delimiter *)
      unfold onClosing. destruct initTag; simpl.
      * destruct (Hinv eq_refl) as (t & -> & Hs & Hps & His & Hop & Hcl).
        rewrite (length_pos_not_nil _ Hop). unfold popped. simpl.
        rewrite Hcl, pop_push. simpl. rewrite andb_true_r.
        destruct (length (pop (openingTagPos t)) =? 0)%nat eqn:E.
        -- apply length_eqb_0 in E. eexists; split; [done|].
           constructor; simpl; try done; lia.
        -- apply length_eqb_0_false in E. intros _.
           eexists; split; [done|]. simpl. repeat split; try done; lia.
      * intros H; discriminate.
    + (* no delimiter *)
      intros H. destruct (Hinv H) as (t & -> & Hs & Hps & His & Hop & Hcl).
      eexists; split; [done|]. repeat split; try done; lia.
Qed.

Lemma body_bwd_inv p cont i initTag ts :
  0 <= i -> bwd_inv p cont i initTag ts ->
  match body p cont false i initTag ts with
  | Next initTag' ts' => bwd_inv p cont (i - 1) initTag' ts'
  | Found ts' => exists t, ts' = Some t /\ resolved p cont t
  end.
Proof.
  intros Hi Hinv. unfold body.
  destruct (startsWith cont (openingDelimiter p) i) eqn:Ho.
  - (* an opening delimiter *)
    unfold onOpening. destruct initTag; simpl.
    + destruct (Hinv eq_refl) as (t & -> & Hs & Hie & Hpe & Hcl & Hop).
      rewrite (length_pos_not_nil _ Hcl). unfold popped. simpl.
      rewrite Hop, pop_push. simpl.
      destruct (length (pop (closingTagPos t)) =? 0)%nat eqn:E.
      * apply length_eqb_0 in E. eexists; split; [done|].
        constructor; simpl; try done; lia.
      * apply length_eqb_0_false in E. intros _.
        eexists; split; [done|]. simpl. repeat split; try done; lia.
    + intros H; discriminate.
  - destruct (startsWith cont (closingDelimiter p) i) eqn:Hc.
    + (* a closing delimiter *)
      unfold onClosing. destruct initTag; simpl.
      * destruct (Hinv eq_refl) as (t & -> & Hs & Hie & Hpe & Hcl & Hop).
        rewrite Hop. simpl. intros _. eexists; split; [done|]. simpl.
        repeat split; try done; try lia. apply push_not_nil.
      * intros _. eexists; split; [done|]. simpl.
        repeat split; try done; lia.
    + (* no delimiter *)
      intros H. destruct (Hinv H) as (t & -> & Hs & Hie & Hpe & Hcl & Hop).
      eexists; split; [done|]. repeat split; try done; lia.
Qed.

Lemma loop_fwd_resolved p cont k : forall i initTag ts,
  0 <= i -> fwd_inv p cont i initTag ts ->
  found (loop p cont true (walk k i 1) initTag ts) = true ->
  exists t, state (loop p cont true (walk k i 1) initTag ts) = Some t /\
            resolved p cont t.
Proof.
  induction k as [|k IH]; intros i initTag ts Hi Hinv; simpl; [done|].
  pose proof (body_fwd_inv p cont i initTag ts Hi Hinv) as Hb.
  destruct (body p cont true i initTag ts) as [it' ts'|ts']; simpl.
  - apply IH; [lia | done].
  - done.
Qed.

Lemma loop_bwd_resolved p cont k : forall i initTag ts,
  Z.of_nat k <= i + 1 -> bwd_inv p cont i initTag ts ->
  found (loop p cont false (walk k i (-1)) initTag ts) = true ->
  exists t, state (loop p cont false (walk k i (-1)) initTag ts) = Some t /\
            resolved p cont t.
Proof.
  induction k as [|k IH]; intros i initTag ts Hi Hinv; simpl; [done|].
  assert (0 <= i) as Hi0 by lia.
  pose proof (body_bwd_inv p cont i initTag ts Hi0 Hinv) as Hb.
  destruct (body p cont false i initTag ts) as [it' ts'|ts']; simpl.
  - apply IH; [lia | done].
  - done.
Qed.

(** A scan that finds something leaves a resolved Match State, whatever
    state an earlier call had left. *)
Lemma first_scan_resolved p e forward :
  0 <= selTo e ->
  found (first_scan p e forward) = true ->
  exists t, state (first_scan p e forward) = Some t /\
            resolved p (value e) t.
Proof.
  intros Hsel. unfold first_scan, scan_indices, cursorIndex.
  destruct forward; simpl.
  - apply loop_fwd_resolved; [done|]. intros H; discriminate.
  - unfold trips. destruct (Z_lt_le_dec (selFrom e - 1 + 1) 0) as [Hn|Hn].
    + rewrite Z2Nat.nonpos by lia. simpl. discriminate.
    + apply loop_bwd_resolved; [lia | intros H; discriminate].
Qed.

Lemma parse_true_resolved p e forward wrapCheck :
  0 <= selTo e ->
  result (parse p e forward wrapCheck) = true ->
  exists t, tagStruct (parser' (parse p e forward wrapCheck)) = Some t /\
            resolved p (value e) t.
Proof.
  intros Hsel Hres. pose proof Hres as Hf.
  rewrite parse_result in Hf. apply andb_true_iff in Hf as [Hg Hf].
  destruct (first_scan_resolved p e forward Hsel Hf) as (t & Ht & Hr).
  exists t. split; [|done].
  destruct wrapCheck.
  - unfold parse. rewrite parse_body_retry. unfold parse_retry, parse_body.
    apply negb_true_iff in Hg. rewrite Hg.
    fold (first_scan p e true). fold (first_scan p e forward).
    by rewrite Hf.
  - rewrite parse_first. simpl. by rewrite Hf.
Qed.

(** ** Running the loop across stretches without delimiters *)

Lemma outcome_skip p cont forward l1 l2 initTag ts :
  (forall i, i ∈ l1 -> quiet p cont i) ->
  outcome (loop p cont forward (l1 ++ l2) initTag ts) =
  outcome (loop p cont forward l2 initTag ts).
Proof.
  intros H. rewrite loop_skip; [done|].
  intros i Hi. by apply body_quiet, H.
Qed.

Lemma outcome_skip_all p cont forward l initTag ts :
  (forall i, i ∈ l -> quiet p cont i) ->
  outcome (loop p cont forward l initTag ts) = (false, ts).
Proof.
  intros H. rewrite loop_skip_all; [done|].
  intros i Hi. by apply body_quiet, H.
Qed.

Lemma outcome_next p cont forward i rest initTag ts initTag' ts' :
  body p cont forward i initTag ts = Next initTag' ts' ->
  outcome (loop p cont forward (i :: rest) initTag ts) =
  outcome (loop p cont forward rest initTag' ts').
Proof. intros H. by rewrite (loop_next _ _ _ _ _ _ _ _ _ H). Qed.

Lemma outcome_found p cont forward i rest initTag ts ts' :
  body p cont forward i initTag ts = Found ts' ->
  outcome (loop p cont forward (i :: rest) initTag ts) = (true, ts').
Proof. intros H. by rewrite (loop_found _ _ _ _ _ _ _ _ H). Qed.

(** Body of the loop at an index where exactly one delimiter is known to
    occur, on a Match State given field by field. *)
Lemma body_opening p cont forward i initTag ts :
  startsWith cont (openingDelimiter p) i = true ->
  body p cont forward i initTag ts =
  onOpening (openingDelimiter p) cont forward i initTag ts.
Proof. intros H. unfold body. by rewrite H. Qed.

Lemma body_closing p cont forward i initTag ts :
  startsWith cont (openingDelimiter p) i = false ->
  startsWith cont (closingDelimiter p) i = true ->
  body p cont forward i initTag ts =
  onClosing (closingDelimiter p) cont forward i initTag ts.
Proof. intros H1 H2. unfold body. by rewrite H1, H2. Qed.

Lemma not_elem_of_1 (i a : Z) : i <> a -> i ∉ [a].
Proof. rewrite list_elem_of_singleton. done. Qed.

Lemma not_elem_of_2 (i a b : Z) : i <> a -> i <> b -> i ∉ [a; b].
Proof. rewrite elem_of_cons, list_elem_of_singleton. tauto. Qed.

Lemma elem_of_1 (a : Z) : a ∈ [a].
Proof. by apply list_elem_of_singleton. Qed.

Section OneRegion.
Variables (p : Parser) (cont : text) (o c : Z).
Hypothesis Hone :
  one_region cont (openingDelimiter p) (closingDelimiter p) o c.

Lemma one_region_open : startsWith cont (openingDelimiter p) o = true.
Proof.
  destruct Hone as (_ & _ & Ho & _).
  by apply (occurrences_some _ _ _ _ Ho), elem_of_1.
Qed.

Lemma one_region_close : startsWith cont (closingDelimiter p) c = true.
Proof.
  destruct Hone as (_ & _ & _ & Hc & _).
  by apply (occurrences_some _ _ _ _ Hc), elem_of_1.
Qed.

Lemma one_region_range :
  0 <= o /\ o < o + len (openingDelimiter p) /\
  o + len (openingDelimiter p) <= c /\
  c < c + len (closingDelimiter p) /\
  c + len (closingDelimiter p) <= len cont.
Proof.
  destruct Hone as (Hod & Hcd & Ho & Hc & Hoc).
  pose proof (len_pos _ Hod). pose proof (len_pos _ Hcd).
  destruct (occurrences_some _ _ _ _ Ho (elem_of_1 o)) as [_ ?].
  destruct (occurrences_some _ _ _ _ Hc (elem_of_1 c)) as [Hsc ?].
  apply startsWith_in_range in Hsc; [|done|lia]. lia.
Qed.

Lemma one_region_quiet i :
  0 <= i < len cont -> i <> o -> i <> c -> quiet p cont i.
Proof.
  destruct Hone as (_ & _ & Ho & Hc & _). intros Hi Hio Hic. split.
  - eapply occurrences_none; [exact Ho | done | by apply not_elem_of_1].
  - eapply occurrences_none; [exact Hc | done | by apply not_elem_of_1].
Qed.

Lemma one_region_close_not_open :
  startsWith cont (openingDelimiter p) c = false.
Proof.
  pose proof one_region_range as Hr.
  destruct Hone as (_ & _ & Ho & _).
  eapply occurrences_none; [exact Ho | lia | apply not_elem_of_1; lia].
Qed.

(** Forward, from anywhere at or before the opening delimiter, whatever
    Match State an earlier call left behind. *)
Lemma forward_scan_one_region start ts :
  0 <= start <= o ->
  outcome (loop p cont true (scan_indices true start (len cont)) false ts)
  = (true, Some (region p cont o c)).
Proof.
  intros Hs. pose proof one_region_range as Hr.
  rewrite (scan_indices_up_split start (len cont) o) by lia.
  rewrite outcome_skip.
  2:{ intros i Hi%elem_of_walk_up. apply one_region_quiet; lia. }
  erewrite outcome_next.
  2:{ rewrite body_opening by apply one_region_open. reflexivity. }
  rewrite (walk_up_split _ (o + 1) c) by lia.
  rewrite outcome_skip.
  2:{ intros i Hi%elem_of_walk_up. apply one_region_quiet; lia. }
  erewrite outcome_found; [reflexivity|].
  rewrite body_closing
    by (apply one_region_close_not_open || apply one_region_close).
  reflexivity.
Qed.

(** Backward, from anywhere at or after the closing delimiter. *)
Lemma backward_scan_one_region start ts :
  c <= start < len cont ->
  outcome (loop p cont false (scan_indices false start (len cont)) false ts)
  = (true, Some (region p cont o c)).
Proof.
  intros Hs. pose proof one_region_range as Hr.
  rewrite (scan_indices_down_split start c) by lia.
  rewrite outcome_skip.
  2:{ intros i Hi%elem_of_walk_down. apply one_region_quiet; lia. }
  erewrite outcome_next.
  2:{ rewrite body_closing
        by (apply one_region_close_not_open || apply one_region_close).
      reflexivity. }
  rewrite (walk_down_split _ (c - 1) o) by lia.
  rewrite outcome_skip.
  2:{ intros i Hi%elem_of_walk_down. apply one_region_quiet; lia. }
  erewrite outcome_found; [reflexivity|].
  rewrite body_opening by apply one_region_open.
  reflexivity.
Qed.

(** Backward, from before the opening delimiter: nothing to find. *)
Lemma backward_scan_before_region start ts :
  start < o ->
  outcome (loop p cont false (scan_indices false start (len cont)) false ts)
  = (false, ts).
Proof.
  intros Hs. pose proof one_region_range as Hr.
  apply outcome_skip_all.
  intros i Hi%elem_of_scan_indices. apply one_region_quiet; lia.
Qed.
End OneRegion.

Section NestedRegions.
Variables (p : Parser) (cont : text) (o1 o2 c1 c2 : Z).
Hypothesis Hnest :
  nested_regions cont (openingDelimiter p) (closingDelimiter p) o1 o2 c1 c2.

Lemma nested_range :
  0 <= o1 /\ o1 < o2 /\ o2 < c1 /\ c1 < c2 /\ c2 < len cont.
Proof.
  destruct Hnest as (Ho & Hc & ? & ? & ?).
  assert (o1 ∈ [o1; o2]) as Hm1 by (apply elem_of_cons; by left).
  assert (c2 ∈ [c1; c2]) as Hm2
    by (apply elem_of_cons; right; apply elem_of_1).
  apply (occurrences_some _ _ _ _ Ho) in Hm1.
  apply (occurrences_some _ _ _ _ Hc) in Hm2. lia.
Qed.

Lemma nested_open i : i = o1 \/ i = o2 ->
  startsWith cont (openingDelimiter p) i = true.
Proof.
  destruct Hnest as (Ho & _). intros Hi.
  apply (occurrences_some _ _ _ _ Ho).
  rewrite elem_of_cons, list_elem_of_singleton. done.
Qed.

Lemma nested_close i : i = c1 \/ i = c2 ->
  startsWith cont (closingDelimiter p) i = true.
Proof.
  destruct Hnest as (_ & Hc & _). intros Hi.
  apply (occurrences_some _ _ _ _ Hc).
  rewrite elem_of_cons, list_elem_of_singleton. done.
Qed.

Lemma nested_not_open i : 0 <= i < len cont -> i <> o1 -> i <> o2 ->
  startsWith cont (openingDelimiter p) i = false.
Proof.
  intros Hi Hn1 Hn2. destruct Hnest as (Ho & _).
  eapply occurrences_none; [exact Ho | done | by apply not_elem_of_2].
Qed.

Lemma nested_quiet i :
  0 <= i < len cont -> i <> o1 -> i <> o2 -> i <> c1 -> i <> c2 ->
  quiet p cont i.
Proof.
  intros Hi Hn1 Hn2 Hn3 Hn4. destruct Hnest as (_ & Hc & _). split.
  - by apply nested_not_open.
  - eapply occurrences_none; [exact Hc | done | by apply not_elem_of_2].
Qed.

(** Forward across [O O C C]: the inner pair is paired off on the way and
    the scan stops at the second closing delimiter. *)
Lemma forward_scan_nested start ts :
  0 <= start <= o1 ->
  outcome (loop p cont true (scan_indices true start (len cont)) false ts)
  = (true, Some (region p cont o1 c2)).
Proof.
  intros Hs. pose proof nested_range as Hr.
  rewrite (scan_indices_up_split start (len cont) o1) by lia.
  rewrite outcome_skip.
  2:{ intros i Hi%elem_of_walk_up. apply nested_quiet; lia. }
  erewrite outcome_next.
  2:{ rewrite body_opening by (apply nested_open; by left). reflexivity. }
  rewrite (walk_up_split _ (o1 + 1) o2) by lia.
  rewrite outcome_skip.
  2:{ intros i Hi%elem_of_walk_up. apply nested_quiet; lia. }
  erewrite outcome_next.
  2:{ rewrite body_opening by (apply nested_open; by right). reflexivity. }
  rewrite (walk_up_split _ (o2 + 1) c1) by lia.
  rewrite outcome_skip.
  2:{ intros i Hi%elem_of_walk_up. apply nested_quiet; lia. }
  erewrite outcome_next.
  2:{ rewrite body_closing
        by ((apply nested_not_open; lia) || (apply nested_close; by left)).
      reflexivity. }
  rewrite (walk_up_split _ (c1 + 1) c2) by lia.
  rewrite outcome_skip.
  2:{ intros i Hi%elem_of_walk_up. apply nested_quiet; lia. }
  erewrite outcome_found; [reflexivity|].
  rewrite body_closing
    by ((apply nested_not_open; lia) || (apply nested_close; by right)).
  reflexivity.
Qed.
End NestedRegions.

(** ** From the scan to [parse] *)

Lemma head_tested_loop p cont forward i rest initTag ts :
  head (tested (loop p cont forward (i :: rest) initTag ts)) = Some i.
Proof. simpl. by destruct (body _ _ _ _ _ _). Qed.

Lemma head_tested_first_scan p e forward :
  head (tested (first_scan p e forward)) =
  if forward
  then (if selTo e <? len (value e) then Some (selTo e) else None)
  else (if 0 <=? selFrom e - 1 then Some (selFrom e - 1) else None).
Proof.
  unfold first_scan, scan_indices, trips, cursorIndex. destruct forward.
  - destruct (Z.ltb_spec (selTo e) (len (value e))) as [H|H].
    + destruct (Z.to_nat (len (value e) - selTo e)) eqn:E; [lia|].
      apply head_tested_loop.
    + by rewrite Z2Nat.nonpos by lia.
  - destruct (Z.leb_spec 0 (selFrom e - 1)) as [H|H].
    + destruct (Z.to_nat (selFrom e - 1 + 1)) eqn:E; [lia|].
      apply head_tested_loop.
    + by rewrite Z2Nat.nonpos by lia.
Qed.

Lemma first_scan_outcome p e forward b ts :
  outcome (first_scan p e forward) = (b, ts) ->
  found (first_scan p e forward) = b /\ state (first_scan p e forward) = ts.
Proof. unfold outcome. intros [= H1 H2]. done. Qed.

(** When [parse] answers [true] the Match State is the one the scan
    produced. *)
Lemma parse_found p e forward ts :
  outcome (first_scan p e forward) = (true, ts) ->
  result (parse p e forward false) = true /\
  parser' (parse p e forward false) = with_tagStruct p ts /\
  editor' (parse p e forward false) = e.
Proof.
  intros [Hf Hs]%first_scan_outcome. rewrite parse_first. simpl.
  rewrite Hf, Hs. done.
Qed.

(** When the scan fails with a Match State in hand there is no retry and
    the editor is not touched. *)
Lemma parse_not_found_some p e forward t :
  outcome (first_scan p e forward) = (false, Some t) ->
  result (parse p e forward false) = false /\
  parser' (parse p e forward false) = with_tagStruct p None /\
  editor' (parse p e forward false) = e.
Proof.
  intros [Hf Hs]%first_scan_outcome. rewrite parse_first. simpl.
  rewrite Hf, Hs. done.
Qed.

Lemma clamp_id (s : text) (i : Z) : 0 <= i <= len s -> clamp s i = i.
Proof. unfold clamp. lia. Qed.

Lemma setters_keep_tagStruct p d :
  tagStruct (setOpeningDelimiter p d) = tagStruct p /\
  tagStruct (setClosingDelimiter p d) = tagStruct p.
Proof. done. Qed.

(** [acceptDefaultText] puts the stored content in place of the outer
    span. *)
Lemma acceptDefaultText_value p e t :
  tagStruct p = Some t ->
  0 <= parentStart t <= parentEnd t -> parentEnd t <= len (value e) ->
  value (snd (acceptDefaultText p e)) =
  take (Z.to_nat (parentStart t)) (value e) ++ content t
    ++ drop (Z.to_nat (parentEnd t)) (value e).
Proof.
  intros H Hs He. unfold acceptDefaultText. rewrite H. simpl.
  rewrite !clamp_id by lia. reflexivity.
Qed.

(** ** The claims *)

(** C1 (code defect). Wrap-around: with the default settings (wrap-around
    enabled) the buffer ["|<X>| after"] has a region at 0..5, which a
    forward parse from offset 0 finds.  With the cursor at 5, after that
    region, the forward parse moves the cursor to offset 0 and calls itself
    with [wrapCheck = true]; the retry is stopped by its guard before it
    tests any index (the only indices tested are 5..10), and the call
    answers [false].  With wrap-around disabled the answer is [false] as
    well, the cursor staying at 5. *)
Theorem wrap_around_retry_finds_nothing :
  let p := pluginParser DEFAULT_SETTINGS in
  let q := pluginParser (with_wrapAround DEFAULT_SETTINGS false) in
  let e := mkEditor (txt "|<X>| after") 5 5 in
  wrapAroundEnabled (settings p) = true /\
  getTagPosition
    (parser' (parse p (mkEditor (txt "|<X>| after") 0 0) true false))
    = Some (0, 5) /\
  result (parse p e true false) = false /\
  selTo (editor' (parse p e true false)) = 0 /\
  visited (parse p e true false) = [5; 6; 7; 8; 9; 10] /\
  result (parse q e true false) = false /\
  selTo (editor' (parse q e true false)) = 5.
Proof. vm_compute. repeat split. Qed.

(** C2 (code defect). Tag removal on ["before |<X>| after"] with the
    delimiters ["|<"] and [">|"]: the outer span 7..12 is replaced by the
    stored content ["X"], giving ["before X after"]; but the Match State is
    not cleared: the position and content queries still answer with the
    offsets of the buffer as it was. *)
Theorem remove_tag_keeps_match_state :
  let p := pluginParser DEFAULT_SETTINGS in
  let e := mkEditor (txt "before |<X>| after") 0 0 in
  let '(ok, p1, e1) := keepTagDefaultContent p e in
  ok = true /\
  value e1 = txt "before X after" /\
  getTagContent p1 = Some (txt "X") /\
  getTagPosition p1 = Some (7, 12) /\
  getInnerTagPosition p1 = Some (9, 10).
Proof. vm_compute. repeat split. Qed.

(** What the Match State left behind can do: in ["|<|<X>|>| after"] the
    first removal leaves ["|<X>| after"] with ["|<X>|"] selected; the
    selection is delimiter-bounded, so a second removal reuses the Match
    State of the first and writes its content over the span 0..9 of the
    new buffer. *)
Example second_removal_uses_stale_state :
  let p := pluginParser DEFAULT_SETTINGS in
  let e := mkEditor (txt "|<|<X>|>| after") 0 0 in
  let '(_, p1, e1) := keepTagDefaultContent p e in
  let '(_, _, e2) := keepTagDefaultContent p1 e1 in
  value e1 = txt "|<X>| after" /\ checkInTag p1 e1 = true /\
  value e2 = txt "|<X>|er".
Proof. vm_compute. repeat split. Qed.

(** C3. Scan origin: unless the call is a retry stopped by its guard, the
    first index tested by a forward parse is the selection end [selTo]
    (the offset of the first character after the selection), and the first
    index tested by a backward parse is [selFrom - 1], one before the
    selection start; no index is tested when that origin is already off the
    buffer. *)
Theorem parse_scan_origin p e forward wrapCheck :
  head (visited (parse p e forward wrapCheck)) =
  if wrapCheck && bool_decide (tagStruct p = None) then None
  else if forward
  then (if selTo e <? len (value e) then Some (selTo e) else None)
  else (if 0 <=? selFrom e - 1 then Some (selFrom e - 1) else None).
Proof.
  rewrite <- (head_tested_first_scan p e forward). destruct wrapCheck.
  - unfold parse. rewrite parse_body_retry. unfold parse_retry, parse_body.
    fold (first_scan p e forward).
    destruct (true && bool_decide (tagStruct p = None)); [done|].
    destruct (found _); [done|]. by rewrite andb_false_r.
  - rewrite parse_first. simpl.
    destruct (found _); [done|]. by destruct (_ && _).
Qed.

(** C4 (code defect). After a successful parse of ["before |<X>| after"],
    setting the opening or the closing delimiter to another non-empty
    string leaves the Match State in place: position, content and
    highlight queries still answer with the region found earlier. *)
Theorem set_delimiter_keeps_match_state :
  let p := pluginParser DEFAULT_SETTINGS in
  let e := mkEditor (txt "before |<X>| after") 0 0 in
  let p1 := parser' (parse p e true false) in
  let po := setOpeningDelimiter p1 (txt "[[") in
  let pc := setClosingDelimiter p1 (txt "]]") in
  getTagPosition po = Some (7, 12) /\
  getInnerTagPosition po = Some (9, 10) /\
  getTagContent po = Some (txt "X") /\
  fst (highlightTag po e) = true /\
  getTagPosition pc = Some (7, 12) /\
  getInnerTagPosition pc = Some (9, 10) /\
  getTagContent pc = Some (txt "X") /\
  fst (highlightTag pc e) = true.
Proof. vm_compute. repeat split. Qed.

(** C5, as stated, fails: with the non-empty delimiters ["<|"] and ["|>"]
    the buffer ["<|>"] has an opening delimiter at 0 and a closing one at
    1, inside it; the forward parse answers [true] with
    [innerStart = 2 > innerEnd = 1]. *)
Lemma bounds_fail_on_overlapping_delimiters :
  let s := {| openingTagDelimiter := txt "<|"; closingTagDelimiter := txt "|>";
              showDebugInfo := false; wrapAroundEnabled := true;
              selectInnerByDefault := false |} in
  let r := parse (pluginParser s) (mkEditor (txt "<|>") 0 0) true false in
  openingDelimiter (pluginParser s) <> [] /\
  closingDelimiter (pluginParser s) <> [] /\
  result r = true /\
  exists t, tagStruct (parser' r) = Some t /\
    ~ (bounds_ordered t).
Proof.
  repeat split; try done.
  eexists. split; [vm_compute; reflexivity|]. unfold bounds_ordered. simpl. lia.
Qed.

(** Without any assumption on how the delimiters overlap: the outer
    offsets enclose the inner ones, and the opening delimiter starts before
    the closing one. *)
Lemma parse_true_outer_bounds p e forward wrapCheck :
  openingDelimiter p <> [] -> closingDelimiter p <> [] ->
  valid_selection e ->
  result (parse p e forward wrapCheck) = true ->
  exists t, tagStruct (parser' (parse p e forward wrapCheck)) = Some t /\
    parentStart t < innerStart t /\ innerEnd t < parentEnd t /\
    parentStart t < innerEnd t.
Proof.
  intros Ho Hc (Hv1 & Hv2 & Hv3) Hres.
  destruct (parse_true_resolved p e forward wrapCheck) as (t & Ht & Hr);
    [lia | done |].
  exists t. split; [done|]. destruct Hr.
  pose proof (len_pos _ Ho). pose proof (len_pos _ Hc). lia.
Qed.

(** C5 (amended). For non-empty delimiters such that the closing delimiter
    cannot begin inside an occurrence of the opening one ([overlap_free]),
    and a selection the editor can report, whenever [parse] answers [true],
    in either direction, the Match State satisfies
    [parentStart < innerStart <= innerEnd < parentEnd]. *)
Theorem parse_true_bounds p e forward wrapCheck :
  openingDelimiter p <> [] -> closingDelimiter p <> [] ->
  overlap_free (openingDelimiter p) (closingDelimiter p) = true ->
  valid_selection e ->
  result (parse p e forward wrapCheck) = true ->
  exists t, tagStruct (parser' (parse p e forward wrapCheck)) = Some t /\
            bounds_ordered t.
Proof.
  intros Ho Hc Hfree (Hv1 & Hv2 & Hv3) Hres.
  destruct (parse_true_resolved p e forward wrapCheck) as (t & Ht & Hr);
    [lia | done |].
  exists t. split; [done|]. destruct Hr.
  pose proof (len_pos _ Ho) as Hlo. pose proof (len_pos _ Hc) as Hlc.
  unfold bounds_ordered. split; [lia|]. split; [|lia].
  destruct (Z_le_gt_dec (innerStart t) (innerEnd t)) as [Hle|Hgt]; [done|].
  exfalso.
  assert (innerEnd t < parentStart t + len (openingDelimiter p)) as Hin by lia.
  pose proof (startsWith_overlap (value e) _ _ (parentStart t) (innerEnd t)
                res_nonneg0 res_order0 Hin res_open0 res_close0) as Hov.
  rewrite overlap_free_spec in Hov; [done | done |]. unfold len in *. lia.
Qed.

Lemma parse_true_bounds_witness :
  exists t,
    tagStruct (parser' (parse (pluginParser DEFAULT_SETTINGS)
                          (mkEditor (txt "before |<X>| after") 14 14)
                          false false)) = Some t /\
    bounds_ordered t.
Proof.
  apply (parse_true_bounds (pluginParser DEFAULT_SETTINGS)
           (mkEditor (txt "before |<X>| after") 14 14) false false).
  - discriminate.
  - discriminate.
  - reflexivity.
  - unfold valid_selection, len. simpl. lia.
  - vm_compute. reflexivity.
Defined.

(** C6. In a buffer whose only opening delimiter is at [o] and whose only
    closing delimiter is at [c], after it, a forward parse from any cursor
    offset at or before [o] answers [true] with [parentStart = o] and
    [parentEnd] the offset just past the closing delimiter. *)
Theorem forward_parse_single_region p e o c :
  one_region (value e) (openingDelimiter p) (closingDelimiter p) o c ->
  0 <= selTo e <= o ->
  result (parse p e true false) = true /\
  getTagPosition (parser' (parse p e true false))
  = Some (o, c + len (closingDelimiter p)).
Proof.
  intros Hone Hsel.
  destruct (parse_found p e true (Some (region p (value e) o c)))
    as (Hr & Hp & _).
  { apply forward_scan_one_region; done. }
  split; [done|]. by rewrite Hp.
Qed.

Lemma forward_parse_single_region_witness :
  result (parse (pluginParser DEFAULT_SETTINGS)
            (mkEditor (txt "before |<X>| after") 3 3) true false) = true /\
  getTagPosition
    (parser' (parse (pluginParser DEFAULT_SETTINGS)
                (mkEditor (txt "before |<X>| after") 3 3) true false))
  = Some (7, 10 + len (closingDelimiter (pluginParser DEFAULT_SETTINGS))).
Proof.
  apply (forward_parse_single_region (pluginParser DEFAULT_SETTINGS)
           (mkEditor (txt "before |<X>| after") 3 3) 7 10).
  - repeat split; first [discriminate | reflexivity].
  - simpl. lia.
Defined.

(** C7. In a buffer of shape [O O C C] (opening delimiters at [o1 < o2],
    closing delimiters at [c1 < c2], [o2 < c1], no other occurrence), a
    forward parse from offset 0, or from any cursor offset at or before
    [o1], resolves the outer region: [parentStart = o1] and [parentEnd] is
    the offset just past the last closing delimiter. *)
Theorem forward_parse_nested_outer p e o1 o2 c1 c2 :
  nested_regions (value e) (openingDelimiter p) (closingDelimiter p)
    o1 o2 c1 c2 ->
  0 <= selTo e <= o1 ->
  result (parse p e true false) = true /\
  getTagPosition (parser' (parse p e true false))
  = Some (o1, c2 + len (closingDelimiter p)).
Proof.
  intros Hn Hsel.
  destruct (parse_found p e true (Some (region p (value e) o1 c2)))
    as (Hr & Hp & _).
  { eapply forward_scan_nested; done. }
  split; [done|]. by rewrite Hp.
Qed.

Lemma forward_parse_nested_outer_witness :
  result (parse (pluginParser DEFAULT_SETTINGS)
            (mkEditor (txt "|<a|<b>|c>| z") 0 0) true false) = true /\
  getTagPosition
    (parser' (parse (pluginParser DEFAULT_SETTINGS)
                (mkEditor (txt "|<a|<b>|c>| z") 0 0) true false))
  = Some (0, 9 + len (closingDelimiter (pluginParser DEFAULT_SETTINGS))).
Proof.
  apply (forward_parse_nested_outer (pluginParser DEFAULT_SETTINGS)
           (mkEditor (txt "|<a|<b>|c>| z") 0 0) 0 3 6 9).
  - repeat split; try reflexivity; lia.
  - simpl. lia.
Defined.

(** C8, as stated, fails: in ["before |<X>| after"], with wrap-around
    disabled, the forward parse finds the region 7..12 and highlighting
    selects 7..12; the backward parse then starts at offset 6, before the
    only region, and answers [false].  The same through the two navigation
    commands: "next tag" succeeds, "previous tag" then fails. *)
Lemma backward_after_highlight_finds_nothing :
  let p := pluginParser (with_wrapAround DEFAULT_SETTINGS false) in
  let e := mkEditor (txt "before |<X>| after") 0 0 in
  let r1 := parse p e true false in
  let e2 := snd (highlightTag (parser' r1) (editor' r1)) in
  occurrences (value e) (openingDelimiter p) = [7] /\
  occurrences (value e) (closingDelimiter p) = [10] /\
  result r1 = true /\
  getTagPosition (parser' r1) = Some (7, 12) /\
  (selFrom e2, selTo e2) = (7, 12) /\
  result (parse (parser' r1) e2 false false) = false /\
  (let '(ok1, p1, e1) := advance p e true in
   let '(ok2, _, _) := advance p1 e1 false in
   ok1 = true /\ ok2 = false).
Proof. vm_compute. repeat split. Qed.

(** C8 (amended). In a buffer with one region, after a successful forward
    parse, a backward parse started from the end of the found region (the
    cursor placed at [parentEnd]) answers [true] and resolves the same
    region, with the same [parentStart] and [parentEnd].  When the found
    region is highlighted instead (selection [parentStart .. parentEnd]),
    the backward scan starts one position before [parentStart], where no
    region lies, and with wrap-around disabled the backward parse answers
    [false] and clears the Match State. *)
Theorem forward_then_backward p e o c :
  one_region (value e) (openingDelimiter p) (closingDelimiter p) o c ->
  0 <= selTo e <= o ->
  let r1 := parse p e true false in
  let pe := c + len (closingDelimiter p) in
  let r2 := parse (parser' r1) (setCursor (editor' r1) pe) false false in
  let r3 := parse (parser' r1) (snd (highlightTag (parser' r1) (editor' r1)))
              false false in
  result r1 = true /\ getTagPosition (parser' r1) = Some (o, pe) /\
  result r2 = true /\ getTagPosition (parser' r2) = Some (o, pe) /\
  (wrapAroundEnabled (settings p) = true \/
   (result r3 = false /\ tagStruct (parser' r3) = None)).
Proof.
  intros Hone Hsel r1 pe r2 r3.
  pose proof (one_region_range p (value e) o c Hone) as Hr.
  destruct (parse_found p e true (Some (region p (value e) o c)))
    as (H1 & Hp & He).
  { apply forward_scan_one_region; done. }
  subst r2 r3 r1. split; [exact H1|]. rewrite Hp, He. clear H1 Hp He.
  set (p1 := with_tagStruct p (Some (region p (value e) o c))).
  split; [reflexivity|].
  (* from the end of the region *)
  destruct (parse_found p1 (setCursor e pe) false
              (Some (region p (value e) o c))) as (H2 & Hp & _).
  { unfold first_scan, cursorIndex, setCursor, setSelection. simpl.
    rewrite !clamp_id by (fold pe; lia). rewrite Z.min_id.
    apply (backward_scan_one_region p1 (value e) o c Hone). subst pe. lia. }
  split; [exact H2|]. split; [by rewrite Hp|].
  (* with the region highlighted *)
  right.
  destruct (parse_not_found_some p1
              (snd (highlightTag p1 e)) false (region p (value e) o c))
    as (Hres & Hp3 & _).
  { unfold first_scan, cursorIndex, highlightTag, setSelection. simpl.
    rewrite !clamp_id by (fold pe; lia).
    apply (backward_scan_before_region p1 (value e) o c Hone).
    fold pe. lia. }
  split; [done|]. by rewrite Hp3.
Qed.

Lemma forward_then_backward_witness :
  let p := pluginParser (with_wrapAround DEFAULT_SETTINGS false) in
  let e := mkEditor (txt "before |<X>| after") 0 0 in
  let r1 := parse p e true false in
  let pe := 10 + len (closingDelimiter p) in
  let r2 := parse (parser' r1) (setCursor (editor' r1) pe) false false in
  let r3 := parse (parser' r1) (snd (highlightTag (parser' r1) (editor' r1)))
              false false in
  result r1 = true /\ getTagPosition (parser' r1) = Some (7, pe) /\
  result r2 = true /\ getTagPosition (parser' r2) = Some (7, pe) /\
  (wrapAroundEnabled (settings p) = true \/
   (result r3 = false /\ tagStruct (parser' r3) = None)).
Proof.
  apply (forward_then_backward
           (pluginParser (with_wrapAround DEFAULT_SETTINGS false))
           (mkEditor (txt "before |<X>| after") 0 0) 7 10).
  - repeat split; first [discriminate | reflexivity].
  - simpl. lia.
Defined.



(** C10 (code defect). ["a|<bc"] holds no closing delimiter, hence no
    region that can be completed, and wrap-around is enabled.  The forward
    parse from offset 1 meets the opening delimiter at 1 and begins a
    Match State; the scan ends without a closing delimiter, so no tag was
    found, but the test [this.tagStruct === null] that guards the
    wrap-around sees the unfinished state: the call answers [false] without
    moving the cursor, which stays at 1.  On ["abcde"], where the scan
    meets no delimiter at all, the same call does move the cursor to
    offset 0 before answering [false]. *)
Lemma failing_parse_leaves_cursor :
  let p := pluginParser DEFAULT_SETTINGS in
  let e := mkEditor (txt "a|<bc") 1 1 in
  let r := parse p e true false in
  let r' := parse p (mkEditor (txt "abcde") 1 1) true false in
  wrapAroundEnabled (settings p) = true /\
  tagStruct p = None /\
  occurrences (value e) (closingDelimiter p) = [] /\
  result r = false /\
  selFrom (editor' r) = 1 /\ selTo (editor' r) = 1 /\
  result r' = false /\
  selFrom (editor' r') = 0 /\ selTo (editor' r') = 0.
Proof. vm_compute. repeat split. Qed.

(** X27. When wrap-around is enabled, the call is not a retry, no Match
    State is held when the call starts and the scanned part of the buffer
    has no delimiter that starts a region in the direction of the scan (no
    opening delimiter at or after the cursor for a forward scan, no closing
    delimiter before the cursor for a backward scan), [parse] answers
    [false] after moving the cursor: to offset 0 for a forward scan, to the
    end of the buffer for a backward scan.  The buffer is unchanged and
    the Match State is absent. *)
Theorem failing_parse_moves_cursor p e forward :
  wrapAroundEnabled (settings p) = true ->
  tagStruct p = None ->
  no_initiator p e forward = true ->
  let r := parse p e forward false in
  let target := if forward then 0 else len (value e) in
  result r = false /\ tagStruct (parser' r) = None /\
  value (editor' r) = value e /\
  selFrom (editor' r) = target /\ selTo (editor' r) = target.
Proof.
  intros Hwrap Hts Hno r target. subst r.
  assert (first_scan p e forward =
          {| found := false; state := None;
             tested := scan_indices forward (cursorIndex forward e)
                         (len (value e)) |}) as Hscan.
  { unfold first_scan. rewrite Hts. apply loop_skip_all.
    intros i Hi. unfold no_initiator in Hno.
    rewrite forallb_forall in Hno.
    specialize (Hno i (proj1 (list_elem_of_In _ _) Hi)).
    apply negb_true_iff in Hno. unfold body.
    destruct forward.
    - rewrite Hno. by destruct (startsWith _ (closingDelimiter p) i).
    - rewrite Hno. by destruct (startsWith _ (openingDelimiter p) i). }
  rewrite parse_first, Hscan. simpl. rewrite Hwrap. simpl.
  pose proof (len_nonneg (value e)).
  subst target. destruct forward; simpl;
    rewrite !clamp_id by lia; repeat split; lia.
Qed.

Lemma failing_parse_moves_cursor_witness :
  let p := pluginParser DEFAULT_SETTINGS in
  let e := mkEditor (txt "abc >| d") 2 2 in
  let r := parse p e true false in
  result r = false /\ tagStruct (parser' r) = None /\
  value (editor' r) = value e /\
  selFrom (editor' r) = 0 /\ selTo (editor' r) = 0.
Proof.
  apply (failing_parse_moves_cursor (pluginParser DEFAULT_SETTINGS)
           (mkEditor (txt "abc >| d") 2 2) true); reflexivity.
Defined.


(** * Further properties of the parser and of the commands *)

(** ** What [parse] leaves untouched *)

(** X1. No call of [parse] changes the buffer, the delimiters or the
    settings; a call that answers [true] leaves the selection where it was
    as well. *)
Theorem parse_frame p e forward wrapCheck :
  let r := parse p e forward wrapCheck in
  value (editor' r) = value e /\
  openingDelimiter (parser' r) = openingDelimiter p /\
  closingDelimiter (parser' r) = closingDelimiter p /\
  settings (parser' r) = settings p /\
  (result r = false \/ editor' r = e).
Proof.
  destruct wrapCheck; simpl.
  - unfold parse. rewrite parse_body_retry. unfold parse_retry, parse_body.
    destruct (true && bool_decide (tagStruct p = None)); simpl.
    { repeat split; by left. }
    destruct (found _); simpl; [repeat split; by right|].
    rewrite andb_false_r. simpl. repeat split; by left.
  - rewrite parse_first. simpl.
    destruct (found _); simpl; [repeat split; by right|].
    destruct (_ && _); simpl; [|repeat split; by left].
    destruct forward; simpl; repeat split; by left.
Qed.

(** ** The Match State after a call: absent or complete *)

Lemma body_found_complete p cont forward i initTag ts ts' :
  body p cont forward i initTag ts = Found ts' ->
  exists t, ts' = Some t /\
    openingTagPos t = [] /\ closingTagPos t = [] /\
    content t = substring cont (innerStart t) (innerEnd t).
Proof.
  assert (Hpop : forall it t, popped cont it t = Found ts' ->
            exists t', ts' = Some t' /\
              openingTagPos t' = [] /\ closingTagPos t' = [] /\
              content t' = substring cont (innerStart t') (innerEnd t')).
  { intros it t. unfold popped. simpl.
    destruct (length (pop (openingTagPos t)) =? 0)%nat eqn:E1; simpl;
      [|discriminate].
    destruct (length (pop (closingTagPos t)) =? 0)%nat eqn:E2; simpl;
      [|discriminate].
    intros [= <-]. eexists; split; [done|]. simpl.
    apply length_eqb_0 in E1. apply length_eqb_0 in E2. done. }
  unfold body, onOpening, onClosing.
  repeat match goal with
         | |- context [if ?b then _ else _] => destruct b; simpl
         | |- context [match ?o with Some _ => _ | None => _ end] =>
             destruct o; simpl
         end;
    try discriminate; apply Hpop.
Qed.

Lemma loop_found_complete p cont forward idxs : forall initTag ts,
  found (loop p cont forward idxs initTag ts) = true ->
  exists t, state (loop p cont forward idxs initTag ts) = Some t /\
    openingTagPos t = [] /\ closingTagPos t = [] /\
    content t = substring cont (innerStart t) (innerEnd t).
Proof.
  induction idxs as [|i rest IH]; intros initTag ts; simpl; [discriminate|].
  destruct (body p cont forward i initTag ts) as [it' ts'|ts'] eqn:E; simpl.
  - apply IH.
  - intros _. by eapply body_found_complete.
Qed.

Lemma parse_false_state p e forward wrapCheck :
  result (parse p e forward wrapCheck) = false ->
  tagStruct (parser' (parse p e forward wrapCheck)) = None.
Proof.
  destruct wrapCheck.
  - unfold parse. rewrite parse_body_retry. unfold parse_retry, parse_body.
    simpl. destruct (bool_decide (tagStruct p = None)) eqn:E.
    + intros _. by apply bool_decide_eq_true_1 in E.
    + destruct (found _); [discriminate|]. by rewrite andb_false_r.
  - rewrite parse_first. simpl.
    destruct (found _); [discriminate|]. by destruct (_ && _).
Qed.

(** X2. After any call of [parse] the Match State is either absent, and
    the answer was [false], or complete, and the answer was [true]: both
    stacks are empty and [content] is the text of the buffer between
    [innerStart] and [innerEnd]. *)
Theorem parse_state_absent_or_complete p e forward wrapCheck :
  let r := parse p e forward wrapCheck in
  match tagStruct (parser' r) with
  | None => result r = false
  | Some t =>
      result r = true /\
      openingTagPos t = [] /\ closingTagPos t = [] /\
      content t = substring (value e) (innerStart t) (innerEnd t)
  end.
Proof.
  simpl. destruct (result (parse p e forward wrapCheck)) eqn:Hres.
  - pose proof Hres as Hf. rewrite parse_result in Hf.
    apply andb_true_iff in Hf as [Hg Hf]. apply negb_true_iff in Hg.
    destruct (loop_found_complete _ _ _ _ _ _ Hf) as (t & Ht & Hc).
    assert (tagStruct (parser' (parse p e forward wrapCheck)) = Some t) as ->.
    { destruct wrapCheck.
      - unfold parse. rewrite parse_body_retry. unfold parse_retry, parse_body.
        rewrite Hg. fold (first_scan p e forward). by rewrite Hf.
      - rewrite parse_first. simpl. by rewrite Hf. }
    done.
  - by rewrite (parse_false_state p e forward wrapCheck Hres).
Qed.

(** ** How much of the buffer a call looks at *)

Lemma tested_prefix p cont forward idxs : forall initTag ts,
  tested (loop p cont forward idxs initTag ts) `prefix_of` idxs.
Proof.
  induction idxs as [|i rest IH]; intros initTag ts; simpl; [done|].
  destruct (body p cont forward i initTag ts) as [it' ts'|ts']; simpl.
  - apply prefix_cons, IH.
  - apply prefix_cons, prefix_nil.
Qed.

Lemma visited_prefix p e forward wrapCheck :
  visited (parse p e forward wrapCheck) `prefix_of`
  scan_indices forward (cursorIndex forward e) (len (value e)).
Proof.
  destruct wrapCheck.
  - unfold parse. rewrite parse_body_retry. unfold parse_retry, parse_body.
    destruct (true && bool_decide (tagStruct p = None)); simpl;
      [apply prefix_nil|].
    destruct (found _) eqn:E; simpl; [apply tested_prefix|].
    rewrite andb_false_r. simpl. apply tested_prefix.
  - rewrite parse_first. simpl. unfold first_scan.
    destruct (found _); simpl; [apply tested_prefix|].
    destruct (_ && _); simpl; apply tested_prefix.
Qed.

Lemma length_walk (k : nat) (i d : Z) : length (walk k i d) = k.
Proof. revert i; induction k as [|k IH]; intros i; simpl; [done|]. by rewrite IH. Qed.

Lemma NoDup_walk_up (k : nat) (i : Z) : NoDup (walk k i 1).
Proof.
  revert i; induction k as [|k IH]; intros i; simpl; [constructor|].
  constructor; [|apply IH]. rewrite elem_of_walk_up. lia.
Qed.

Lemma NoDup_walk_down (k : nat) (i : Z) : NoDup (walk k i (-1)).
Proof.
  revert i; induction k as [|k IH]; intros i; simpl; [constructor|].
  constructor; [|apply IH]. rewrite elem_of_walk_down. lia.
Qed.

Lemma NoDup_scan_indices forward c n : NoDup (scan_indices forward c n).
Proof.
  unfold scan_indices, direction. destruct forward;
    [apply NoDup_walk_up | apply NoDup_walk_down].
Qed.

(** X3. One call of [parse] runs the loop body on an initial stretch of
    the indices from the scan origin to the end of the buffer in the scan
    direction: every index it tests lies in the buffer, none is tested
    twice, and there are at most as many as the buffer is long.  A retry
    adds nothing to them. *)
Theorem parse_tests_each_index_once p e forward wrapCheck :
  valid_selection e ->
  let v := visited (parse p e forward wrapCheck) in
  v `prefix_of` scan_indices forward (cursorIndex forward e) (len (value e)) /\
  Forall (fun i => 0 <= i < len (value e)) v /\
  NoDup v /\
  Z.of_nat (length v) <= len (value e).
Proof.
  intros (Hv1 & Hv2 & Hv3) v.
  pose proof (visited_prefix p e forward wrapCheck) as Hp. fold v in Hp.
  split; [done|]. destruct Hp as [k Hk]. split; [|split].
  - apply Forall_forall. intros i Hi.
    assert (i ∈ scan_indices forward (cursorIndex forward e) (len (value e)))
      as Hin by (rewrite Hk; apply elem_of_app; by left).
    apply elem_of_scan_indices in Hin. unfold cursorIndex in Hin.
    destruct forward; lia.
  - pose proof (NoDup_scan_indices forward (cursorIndex forward e)
                  (len (value e))) as Hnd.
    rewrite Hk in Hnd. by apply NoDup_app in Hnd as [? _].
  - assert (length v <= length (scan_indices forward (cursorIndex forward e)
                                 (len (value e))))%nat as Hle
      by (rewrite Hk, length_app; lia).
    unfold scan_indices in Hle. rewrite length_walk in Hle.
    unfold trips, cursorIndex in Hle. destruct forward; lia.
Qed.

Lemma parse_tests_each_index_once_witness :
  let e := mkEditor (txt "before |<X>| after") 3 5 in
  let v := visited (parse (pluginParser DEFAULT_SETTINGS) e false false) in
  v `prefix_of` scan_indices false (cursorIndex false e) (len (value e)) /\
  Forall (fun i => 0 <= i < len (value e)) v /\
  NoDup v /\
  Z.of_nat (length v) <= len (value e).
Proof.
  apply (parse_tests_each_index_once (pluginParser DEFAULT_SETTINGS)
           (mkEditor (txt "before |<X>| after") 3 5) false false).
  unfold valid_selection, len. simpl. lia.
Defined.

(** ** Buffers and delimiters on which nothing can be found *)

(** X4. With non-empty delimiters, a buffer in which the opening delimiter
    does not occur, or the closing delimiter does not occur, holds no
    region: [parse] answers [false] in both directions and leaves no Match
    State. *)
Theorem parse_needs_both_delimiters p e forward wrapCheck :
  openingDelimiter p <> [] -> closingDelimiter p <> [] ->
  valid_selection e ->
  occurrences (value e) (openingDelimiter p) = [] \/
  occurrences (value e) (closingDelimiter p) = [] ->
  result (parse p e forward wrapCheck) = false /\
  tagStruct (parser' (parse p e forward wrapCheck)) = None.
Proof.
  intros Ho Hc (Hv1 & Hv2 & Hv3) Hnone.
  destruct (result (parse p e forward wrapCheck)) eqn:Hres.
  - exfalso.
    destruct (parse_true_resolved p e forward wrapCheck) as (t & _ & Hr);
      [lia | done |].
    destruct Hr.
    pose proof (len_pos _ Ho). pose proof (len_pos _ Hc).
    pose proof (startsWith_in_range _ _ _ Ho res_nonneg0 res_open0).
    assert (0 <= innerEnd t) as Hie by lia.
    pose proof (startsWith_in_range _ _ _ Hc Hie res_close0).
    destruct Hnone as [Hn|Hn].
    + assert (parentStart t ∈ occurrences (value e) (openingDelimiter p)) as Hin
        by (apply elem_of_occurrences; split; [done | lia]).
      rewrite Hn in Hin. by apply elem_of_nil in Hin.
    + assert (innerEnd t ∈ occurrences (value e) (closingDelimiter p)) as Hin
        by (apply elem_of_occurrences; split; [done | lia]).
      rewrite Hn in Hin. by apply elem_of_nil in Hin.
  - split; [done|]. by apply parse_false_state.
Qed.

Lemma parse_needs_both_delimiters_witness :
  result (parse (pluginParser DEFAULT_SETTINGS)
            (mkEditor (txt "a |< b |< c") 0 0) true false) = false /\
  tagStruct (parser' (parse (pluginParser DEFAULT_SETTINGS)
            (mkEditor (txt "a |< b |< c") 0 0) true false)) = None.
Proof.
  apply (parse_needs_both_delimiters (pluginParser DEFAULT_SETTINGS)
           (mkEditor (txt "a |< b |< c") 0 0) true false).
  - discriminate.
  - discriminate.
  - unfold valid_selection, len. simpl. lia.
  - right. reflexivity.
Defined.

Lemma startsWith_prefix_mono (s o c : text) (i : Z) :
  prefixb o c = true -> startsWith s c i = true -> startsWith s o i = true.
Proof.
  unfold startsWith. rewrite !prefixb_prefix. intros H1 H2. by etrans.
Qed.

(** When the closing delimiter begins with the opening one the loop never
    enters its closing branch. *)
Lemma body_prefix_delimiters p cont forward i initTag ts :
  prefixb (openingDelimiter p) (closingDelimiter p) = true ->
  body p cont forward i initTag ts =
  if startsWith cont (openingDelimiter p) i
  then onOpening (openingDelimiter p) cont forward i initTag ts
  else Next initTag ts.
Proof.
  intros Hpre. unfold body.
  destruct (startsWith cont (openingDelimiter p) i) eqn:Ho; [done|].
  destruct (startsWith cont (closingDelimiter p) i) eqn:Hc; [|done].
  by rewrite (startsWith_prefix_mono _ _ _ _ Hpre Hc) in Ho.
Qed.

Lemma loop_prefix_delimiters p cont forward idxs : forall initTag ts,
  prefixb (openingDelimiter p) (closingDelimiter p) = true ->
  (initTag = true ->
   forward = true /\ exists t, ts = Some t /\ closingTagPos t = []) ->
  found (loop p cont forward idxs initTag ts) = false.
Proof.
  induction idxs as [|i rest IH]; intros initTag ts Hpre Hinv; simpl; [done|].
  rewrite body_prefix_delimiters by done.
  destruct (startsWith cont (openingDelimiter p) i); simpl.
  - unfold onOpening. destruct initTag; simpl.
    + destruct (Hinv eq_refl) as (-> & t & -> & Hcl). simpl.
      rewrite Hcl. simpl. apply IH; [done|]. intros _.
      split; [done|]. by eexists.
    + destruct forward; simpl.
      * apply IH; [done|]. intros _. split; [done|]. by eexists.
      * apply IH; [done|]. intros H; discriminate.
  - by apply IH.
Qed.

(** X5. When the closing delimiter begins with the opening delimiter, in
    particular when the two delimiters are the same string or the opening
    delimiter is empty, every closing delimiter in the buffer is read as an
    opening one, and [parse] answers [false] on every buffer, from every
    cursor, in both directions. *)
Theorem parse_never_matches_prefix_delimiters p e forward wrapCheck :
  prefixb (openingDelimiter p) (closingDelimiter p) = true ->
  result (parse p e forward wrapCheck) = false.
Proof.
  intros Hpre. rewrite parse_result. unfold first_scan.
  rewrite loop_prefix_delimiters; [apply andb_false_r | done |].
  intros H; discriminate.
Qed.

Lemma parse_never_matches_prefix_delimiters_witness :
  result (parse (newParser DEFAULT_SETTINGS (txt "**") (txt "**"))
            (mkEditor (txt "a **b** c") 0 0) true false) = false.
Proof.
  apply (parse_never_matches_prefix_delimiters
           (newParser DEFAULT_SETTINGS (txt "**") (txt "**"))
           (mkEditor (txt "a **b** c") 0 0) true false).
  reflexivity.
Defined.

(** ** The settings and the answer *)

Lemma loop_with_settings p s cont forward idxs : forall initTag ts,
  loop (with_settings p s) cont forward idxs initTag ts =
  loop p cont forward idxs initTag ts.
Proof.
  induction idxs as [|i rest IH]; intros initTag ts; simpl; [done|].
  change (body (with_settings p s) cont forward i initTag ts)
    with (body p cont forward i initTag ts).
  destruct (body p cont forward i initTag ts); [|done]. by rewrite IH.
Qed.

Lemma parse_tagStruct_after p e forward wrapCheck :
  tagStruct (parser' (parse p e forward wrapCheck)) =
  if result (parse p e forward wrapCheck)
  then state (first_scan p e forward) else None.
Proof.
  destruct (result (parse p e forward wrapCheck)) eqn:Hres;
    [|by apply parse_false_state].
  pose proof Hres as Hf. rewrite parse_result in Hf.
  apply andb_true_iff in Hf as [Hg Hf]. apply negb_true_iff in Hg.
  destruct wrapCheck.
  - unfold parse. rewrite parse_body_retry. unfold parse_retry, parse_body.
    rewrite Hg. fold (first_scan p e forward). by rewrite Hf.
  - rewrite parse_first. simpl. by rewrite Hf.
Qed.

(** X6. The settings, the wrap-around flag among them, have no part in
    the answer of [parse], in the Match State it leaves or in the buffer:
    under any other settings the same call gives the same three.  What the
    wrap-around flag decides is only where the cursor is after a failed
    scan. *)
Theorem parse_answer_ignores_settings p s e forward wrapCheck :
  let r := parse p e forward wrapCheck in
  let r' := parse (with_settings p s) e forward wrapCheck in
  result r' = result r /\
  tagStruct (parser' r') = tagStruct (parser' r) /\
  value (editor' r') = value (editor' r).
Proof.
  simpl.
  assert (first_scan (with_settings p s) e forward = first_scan p e forward)
    as Hscan by apply loop_with_settings.
  assert (result (parse (with_settings p s) e forward wrapCheck)
          = result (parse p e forward wrapCheck)) as Hres.
  { rewrite !parse_result. by rewrite Hscan. }
  split; [done|]. split.
  - rewrite !parse_tagStruct_after. by rewrite Hres, Hscan.
  - pose proof (parse_frame p e forward wrapCheck) as (-> & _).
    by pose proof (parse_frame (with_settings p s) e forward wrapCheck)
      as (-> & _).
Qed.

(** ** A failed scan with a Match State in hand *)

Lemma first_scan_no_initiator p e forward :
  no_initiator p e forward = true ->
  first_scan p e forward =
  {| found := false; state := tagStruct p;
     tested := scan_indices forward (cursorIndex forward e)
                 (len (value e)) |}.
Proof.
  intros Hno. unfold first_scan. apply loop_skip_all.
  intros i Hi. unfold no_initiator in Hno.
  rewrite forallb_forall in Hno.
  specialize (Hno i (proj1 (list_elem_of_In _ _) Hi)).
  apply negb_true_iff in Hno. unfold body.
  destruct forward.
  - rewrite Hno. by destruct (startsWith _ (closingDelimiter p) i).
  - rewrite Hno. by destruct (startsWith _ (openingDelimiter p) i).
Qed.

(** X7. When a Match State is held as the call starts (the one a
    successful call left) and the scanned part of the buffer has no
    delimiter that starts a region in the scan direction, [parse] answers
    [false], clears the Match State and leaves the editor as it was,
    cursor included, whatever the wrap-around setting. *)
Theorem failing_parse_with_state_keeps_cursor p e forward t :
  tagStruct p = Some t ->
  no_initiator p e forward = true ->
  let r := parse p e forward false in
  result r = false /\ tagStruct (parser' r) = None /\ editor' r = e.
Proof.
  intros Hts Hno. simpl.
  rewrite parse_first, (first_scan_no_initiator _ _ _ Hno), Hts. simpl.
  done.
Qed.

Lemma failing_parse_with_state_keeps_cursor_witness :
  let p := pluginParser DEFAULT_SETTINGS in
  let e := mkEditor (txt "|<X>| after") 0 0 in
  let p1 := parser' (parse p e true false) in
  let e1 := snd (highlightTag p1 e) in
  let r := parse p1 e1 true false in
  result r = false /\ tagStruct (parser' r) = None /\ editor' r = e1.
Proof.
  apply (failing_parse_with_state_keeps_cursor
           (parser' (parse (pluginParser DEFAULT_SETTINGS)
                       (mkEditor (txt "|<X>| after") 0 0) true false))
           (snd (highlightTag
                   (parser' (parse (pluginParser DEFAULT_SETTINGS)
                               (mkEditor (txt "|<X>| after") 0 0) true false))
                   (mkEditor (txt "|<X>| after") 0 0)))
           true
           (region (pluginParser DEFAULT_SETTINGS) (txt "|<X>| after") 0 3));
    reflexivity.
Defined.

(** ** The empty buffer *)

(** X8. On the empty buffer [parse] tests no index and answers [false],
    in either direction, with or without wrap-around, retry or not; no
    Match State is left and the editor is as it was. *)
Theorem parse_empty_buffer p forward wrapCheck :
  let e := mkEditor [] 0 0 in
  let r := parse p e forward wrapCheck in
  result r = false /\ visited r = [] /\
  tagStruct (parser' r) = None /\ editor' r = e.
Proof.
  simpl. destruct wrapCheck.
  - unfold parse. rewrite parse_body_retry. unfold parse_retry, parse_body.
    simpl. destruct (bool_decide (tagStruct p = None)) eqn:E; simpl.
    + apply bool_decide_eq_true_1 in E. done.
    + destruct forward; simpl; by rewrite andb_false_r.
  - rewrite parse_first. unfold first_scan.
    destruct forward; simpl;
      destruct (bool_decide (tagStruct p = None)
                && wrapAroundEnabled (settings p)); done.
Qed.

(** ** Which region a forward scan resolves *)

Lemma depth_app p cont l1 l2 :
  depth p cont (l1 ++ l2) = depth p cont l1 + depth p cont l2.
Proof.
  induction l1 as [|i l1 IH]; simpl; [done|]. rewrite IH. lia.
Qed.

Lemma walk_snoc (n : nat) (a d : Z) :
  walk (S n) a d = walk n a d ++ [a + Z.of_nat n * d].
Proof.
  replace (S n) with (n + 1)%nat by lia. by rewrite walk_app.
Qed.

Lemma depth_walk_snoc p cont (n : nat) (a d : Z) :
  depth p cont (walk (S n) a d) =
  depth p cont (walk n a d) + delta p cont (a + Z.of_nat n * d).
Proof. rewrite walk_snoc, depth_app. simpl. lia. Qed.

Lemma length_pop (a : list Z) : length (pop a) = pred (length a).
Proof.
  unfold pop. rewrite removelast_firstn_len.
  change (firstn (pred (length a)) a) with (take (pred (length a)) a).
  rewrite length_take. lia.
Qed.

Lemma delta_opening p cont i :
  startsWith cont (openingDelimiter p) i = true -> delta p cont i = 1.
Proof. intros H. unfold delta. by rewrite H. Qed.

Lemma delta_closing p cont i :
  startsWith cont (openingDelimiter p) i = false ->
  startsWith cont (closingDelimiter p) i = true -> delta p cont i = -1.
Proof. intros H1 H2. unfold delta. by rewrite H1, H2. Qed.

Lemma delta_plain p cont i :
  startsWith cont (openingDelimiter p) i = false ->
  startsWith cont (closingDelimiter p) i = false -> delta p cont i = 0.
Proof. intros H1 H2. unfold delta. by rewrite H1, H2. Qed.

(** Reduce the field projections of an explicit Match State, and nothing
    else. *)
Ltac fields :=
  cbn [parentStart parentEnd innerStart innerEnd content
       openingTagPos closingTagPos complete].

Lemma loop_fwd_track p cont ps k : forall n ts,
  (1 <= n)%nat -> fwd_track p cont ps n ts ->
  found (loop p cont true (walk k (ps + Z.of_nat n) 1) true ts) = true ->
  fwd_matched p cont ps
    (state (loop p cont true (walk k (ps + Z.of_nat n) 1) true ts)).
Proof.
  induction k as [|k IH]; intros n ts Hn Htr; simpl; [discriminate|].
  destruct Htr as (t & -> & Hps & Hcl & Hlen & Hpos).
  assert (Hd : 0 < depth p cont (walk n ps 1)) by (apply Hpos; lia).
  pose proof (depth_walk_snoc p cont n ps 1) as Hsn.
  rewrite Z.mul_1_r in Hsn.
  replace (ps + Z.of_nat n + 1) with (ps + Z.of_nat (S n)) by lia.
  unfold body.
  destruct (startsWith cont (openingDelimiter p) (ps + Z.of_nat n)) eqn:Ho.
  - (* one level deeper *)
    rewrite (delta_opening _ _ _ Ho) in Hsn.
    unfold onOpening. simpl. rewrite Hcl. simpl.
    apply IH; [lia|]. eexists; split; [done|]. fields.
    repeat split; try done.
    + unfold push. rewrite length_app. change (length [ps + Z.of_nat n]) with 1%nat. lia.
    + intros m Hm. destruct (decide (m = S n)) as [->|]; [lia|].
      apply Hpos. lia.
  - destruct (startsWith cont (closingDelimiter p) (ps + Z.of_nat n)) eqn:Hc.
    + (* one level up, or done *)
      rewrite (delta_closing _ _ _ Ho Hc) in Hsn.
      unfold onClosing. simpl.
      assert (openingTagPos t <> []) as Hne
        by (destruct (openingTagPos t); [simpl in *; lia | done]).
      rewrite (length_pos_not_nil _ Hne). unfold popped. simpl.
      rewrite Hcl, pop_push. simpl. rewrite andb_true_r.
      pose proof (length_pop (openingTagPos t)) as Hlp.
      destruct (length (pop (openingTagPos t)) =? 0)%nat eqn:E; simpl.
      * apply Nat.eqb_eq in E. intros _.
        exists (complete cont
                  {| parentStart := parentStart t;
                     parentEnd := ps + Z.of_nat n + len (closingDelimiter p);
                     innerStart := innerStart t;
                     innerEnd := ps + Z.of_nat n;
                     content := content t;
                     openingTagPos := pop (openingTagPos t);
                     closingTagPos := [] |}), n.
        fields. repeat split; try done; try lia;
          intros j Hj; apply Hpos; lia.
      * apply Nat.eqb_neq in E.
        apply IH; [lia|]. eexists; split; [done|]. fields.
        repeat split; try done; try lia.
        intros m Hm. destruct (decide (m = S n)) as [->|]; [lia|].
        apply Hpos. lia.
    + (* no delimiter *)
      rewrite (delta_plain _ _ _ Ho Hc) in Hsn.
      apply IH; [lia|]. eexists; split; [done|].
      repeat split; try done; try lia.
      intros m Hm. destruct (decide (m = S n)) as [->|]; [lia|].
      apply Hpos. lia.
Qed.

Lemma loop_fwd_first p cont k : forall i ts,
  found (loop p cont true (walk k i 1) false ts) = true ->
  exists ps, i <= ps /\
    (forall x, i <= x < ps -> startsWith cont (openingDelimiter p) x = false) /\
    startsWith cont (openingDelimiter p) ps = true /\
    fwd_matched p cont ps (state (loop p cont true (walk k i 1) false ts)).
Proof.
  induction k as [|k IH]; intros i ts; simpl; [discriminate|].
  unfold body.
  destruct (startsWith cont (openingDelimiter p) i) eqn:Ho.
  - (* the first opening delimiter *)
    unfold onOpening. simpl. intros Hf. exists i.
    split; [lia|]. split; [intros x Hx; lia|]. split; [done|].
    replace (i + 1) with (i + Z.of_nat 1) in * by lia.
    apply loop_fwd_track; [lia | | done].
    eexists; split; [done|]. fields. repeat split; try done.
    + simpl. rewrite (delta_opening _ _ _ Ho). lia.
    + intros m Hm. assert (m = 1%nat) as -> by lia. simpl.
      rewrite (delta_opening _ _ _ Ho). lia.
  - destruct (startsWith cont (closingDelimiter p) i) eqn:Hc; simpl;
      intros Hf; destruct (IH (i + 1) ts Hf) as (ps & Hle & Hno & Hop & Hm);
      exists ps; (split; [lia|]); (split; [|by split]);
      intros x Hx; (destruct (decide (x = i)) as [->|]; [done|]);
      apply Hno; lia.
Qed.

Lemma parse_forward_true p e wrapCheck :
  result (parse p e true wrapCheck) = true ->
  exists ps, selTo e <= ps /\
    (forall x, selTo e <= x < ps ->
               startsWith (value e) (openingDelimiter p) x = false) /\
    startsWith (value e) (openingDelimiter p) ps = true /\
    fwd_matched p (value e) ps
      (tagStruct (parser' (parse p e true wrapCheck))).
Proof.
  intros Hres. rewrite parse_tagStruct_after, Hres.
  rewrite parse_result in Hres. apply andb_true_iff in Hres as [_ Hf].
  by apply loop_fwd_first in Hf.
Qed.

(** X9. A forward parse that answers [true] has resolved the region that
    begins at the first opening delimiter at or after the selection end:
    [parentStart] is not before the selection end, an opening delimiter
    occurs at [parentStart], and none occurs between the selection end and
    [parentStart]. *)
Theorem forward_parse_nearest_opening p e wrapCheck :
  result (parse p e true wrapCheck) = true ->
  exists t, tagStruct (parser' (parse p e true wrapCheck)) = Some t /\
    selTo e <= parentStart t /\
    startsWith (value e) (openingDelimiter p) (parentStart t) = true /\
    forall x, selTo e <= x < parentStart t ->
              startsWith (value e) (openingDelimiter p) x = false.
Proof.
  intros Hres.
  destruct (parse_forward_true p e wrapCheck Hres)
    as (ps & Hle & Hno & Hop & t & m & Ht & Hps & _).
  exists t. rewrite Hps. done.
Qed.

Lemma forward_parse_nearest_opening_witness :
  exists t,
    tagStruct (parser' (parse (pluginParser DEFAULT_SETTINGS)
                          (mkEditor (txt "a >| b |<X>| c") 1 1)
                          true false)) = Some t /\
    selTo (mkEditor (txt "a >| b |<X>| c") 1 1) <= parentStart t /\
    startsWith (value (mkEditor (txt "a >| b |<X>| c") 1 1))
      (openingDelimiter (pluginParser DEFAULT_SETTINGS)) (parentStart t)
    = true /\
    forall x, selTo (mkEditor (txt "a >| b |<X>| c") 1 1) <= x < parentStart t ->
              startsWith (value (mkEditor (txt "a >| b |<X>| c") 1 1))
                (openingDelimiter (pluginParser DEFAULT_SETTINGS)) x = false.
Proof.
  apply (forward_parse_nearest_opening (pluginParser DEFAULT_SETTINGS)
           (mkEditor (txt "a >| b |<X>| c") 1 1) false).
  vm_compute. reflexivity.
Defined.

(** X10. A forward parse that answers [true] has stopped at the closing
    delimiter that matches the opening delimiter at [parentStart]:
    counting [+1] for every opening delimiter and [-1] for every closing
    delimiter from [parentStart] on, the count is positive at every index
    before [innerEnd] and zero at [innerEnd].  Nested regions are skipped
    as a whole, and the first closing delimiter that balances the count
    ends the region. *)
Theorem forward_parse_matching_close p e wrapCheck :
  result (parse p e true wrapCheck) = true ->
  exists t, tagStruct (parser' (parse p e true wrapCheck)) = Some t /\
    parentStart t < innerEnd t /\
    nesting p (value e) (parentStart t) (innerEnd t) = 0 /\
    forall j, parentStart t <= j < innerEnd t ->
              0 < nesting p (value e) (parentStart t) j.
Proof.
  intros Hres.
  destruct (parse_forward_true p e wrapCheck Hres)
    as (ps & _ & _ & _ & t & m & Ht & Hps & Hie & Hm & Hz & Hpos).
  exists t. rewrite Hps, Hie. split; [done|]. split; [lia|].
  unfold nesting. split.
  - replace (Z.to_nat (ps + Z.of_nat m - ps + 1)) with (S m) by lia. done.
  - intros j Hj. apply Hpos. lia.
Qed.

Lemma forward_parse_matching_close_witness :
  exists t,
    tagStruct (parser' (parse (pluginParser DEFAULT_SETTINGS)
                          (mkEditor (txt "|<a|<b>|c>| z >|") 0 0)
                          true false)) = Some t /\
    parentStart t < innerEnd t /\
    nesting (pluginParser DEFAULT_SETTINGS)
      (value (mkEditor (txt "|<a|<b>|c>| z >|") 0 0))
      (parentStart t) (innerEnd t) = 0 /\
    forall j, parentStart t <= j < innerEnd t ->
              0 < nesting (pluginParser DEFAULT_SETTINGS)
                    (value (mkEditor (txt "|<a|<b>|c>| z >|") 0 0))
                    (parentStart t) j.
Proof.
  apply (forward_parse_matching_close (pluginParser DEFAULT_SETTINGS)
           (mkEditor (txt "|<a|<b>|c>| z >|") 0 0) false).
  vm_compute. reflexivity.
Defined.

(** ** Which region a backward scan resolves *)

Lemma loop_bwd_track p cont ie k : forall n ts,
  (1 <= n)%nat -> bwd_track p cont ie n ts ->
  found (loop p cont false (walk k (ie - Z.of_nat n) (-1)) true ts) = true ->
  bwd_matched p cont ie
    (state (loop p cont false (walk k (ie - Z.of_nat n) (-1)) true ts)).
Proof.
  induction k as [|k IH]; intros n ts Hn Htr; simpl; [discriminate|].
  destruct Htr as (t & -> & Hie & Hop & Hlen & Hneg).
  assert (Hd : depth p cont (walk n ie (-1)) < 0) by (apply Hneg; lia).
  pose proof (depth_walk_snoc p cont n ie (-1)) as Hsn.
  replace (ie + Z.of_nat n * -1) with (ie - Z.of_nat n) in Hsn by lia.
  replace (ie - Z.of_nat n + -1) with (ie - Z.of_nat (S n)) by lia.
  unfold body.
  destruct (startsWith cont (openingDelimiter p) (ie - Z.of_nat n)) eqn:Ho.
  - (* one level up, or done *)
    rewrite (delta_opening _ _ _ Ho) in Hsn.
    unfold onOpening. simpl.
    assert (closingTagPos t <> []) as Hne
      by (destruct (closingTagPos t); [simpl in *; lia | done]).
    rewrite (length_pos_not_nil _ Hne). unfold popped. simpl.
    rewrite Hop, pop_push. simpl.
    pose proof (length_pop (closingTagPos t)) as Hlp.
    destruct (length (pop (closingTagPos t)) =? 0)%nat eqn:E; simpl.
    + apply Nat.eqb_eq in E. intros _.
      exists (complete cont
                {| parentStart := ie - Z.of_nat n;
                   parentEnd := parentEnd t;
                   innerStart := ie - Z.of_nat n + len (openingDelimiter p);
                   innerEnd := innerEnd t;
                   content := content t;
                   openingTagPos := [];
                   closingTagPos := pop (closingTagPos t) |}), n.
      fields. repeat split; try done; try lia;
        intros j Hj; apply Hneg; lia.
    + apply Nat.eqb_neq in E.
      apply IH; [lia|]. eexists; split; [done|]. fields.
      repeat split; try done; try lia.
      intros m Hm. destruct (decide (m = S n)) as [->|]; [lia|].
      apply Hneg. lia.
  - destruct (startsWith cont (closingDelimiter p) (ie - Z.of_nat n)) eqn:Hc.
    + (* one level deeper *)
      rewrite (delta_closing _ _ _ Ho Hc) in Hsn.
      unfold onClosing. simpl. rewrite Hop. simpl.
      apply IH; [lia|]. eexists; split; [done|]. fields.
      repeat split; try done.
      * unfold push. rewrite length_app.
        change (length [ie - Z.of_nat n]) with 1%nat. lia.
      * intros m Hm. destruct (decide (m = S n)) as [->|]; [lia|].
        apply Hneg. lia.
    + (* no delimiter *)
      rewrite (delta_plain _ _ _ Ho Hc) in Hsn.
      apply IH; [lia|]. eexists; split; [done|].
      repeat split; try done; try lia.
      intros m Hm. destruct (decide (m = S n)) as [->|]; [lia|].
      apply Hneg. lia.
Qed.

Lemma loop_bwd_first p cont k : forall i ts,
  found (loop p cont false (walk k i (-1)) false ts) = true ->
  exists ie, ie <= i /\
    (forall x, ie < x <= i -> delta p cont x <> -1) /\
    delta p cont ie = -1 /\
    bwd_matched p cont ie (state (loop p cont false (walk k i (-1)) false ts)).
Proof.
  induction k as [|k IH]; intros i ts; simpl; [discriminate|].
  unfold body.
  destruct (startsWith cont (openingDelimiter p) i) eqn:Ho.
  - (* an opening delimiter before any closing one: passed over *)
    unfold onOpening. simpl. intros Hf.
    destruct (IH (i + -1) ts Hf) as (ie & Hle & Hno & Hcl & Hm).
    exists ie. split; [lia|]. split; [|by split].
    intros x Hx. destruct (decide (x = i)) as [->|].
    + rewrite (delta_opening _ _ _ Ho). lia.
    + apply Hno. lia.
  - destruct (startsWith cont (closingDelimiter p) i) eqn:Hc.
    + (* the first closing delimiter *)
      unfold onClosing. simpl. intros Hf. exists i.
      split; [lia|]. split; [intros x Hx; lia|].
      split; [by apply delta_closing|].
      replace (i + -1) with (i - Z.of_nat 1) in * by lia.
      apply loop_bwd_track; [lia | | done].
      eexists; split; [done|]. fields. repeat split; try done.
      * simpl. rewrite (delta_closing _ _ _ Ho Hc). lia.
      * intros m Hm. assert (m = 1%nat) as -> by lia. simpl.
        rewrite (delta_closing _ _ _ Ho Hc). lia.
    + intros Hf.
      destruct (IH (i + -1) ts Hf) as (ie & Hle & Hno & Hcl & Hm).
      exists ie. split; [lia|]. split; [|by split].
      intros x Hx. destruct (decide (x = i)) as [->|].
      * rewrite (delta_plain _ _ _ Ho Hc). lia.
      * apply Hno. lia.
Qed.

Lemma depth_walk_down_up p cont (n : nat) : forall i,
  depth p cont (walk n i (-1)) = depth p cont (walk n (i - Z.of_nat n + 1) 1).
Proof.
  induction n as [|n IH]; intros i; [done|].
  rewrite (depth_walk_snoc p cont n (i - Z.of_nat (S n) + 1) 1).
  assert (depth p cont (walk (S n) i (-1)) =
          delta p cont i + depth p cont (walk n (i + -1) (-1))) as -> by done.
  rewrite IH.
  replace (i + -1 - Z.of_nat n + 1) with (i - Z.of_nat (S n) + 1) by lia.
  replace (i - Z.of_nat (S n) + 1 + Z.of_nat n * 1) with i by lia. lia.
Qed.

Lemma parse_backward_true p e wrapCheck :
  result (parse p e false wrapCheck) = true ->
  exists ie, ie < selFrom e /\
    (forall x, ie < x < selFrom e -> delta p (value e) x <> -1) /\
    delta p (value e) ie = -1 /\
    bwd_matched p (value e) ie
      (tagStruct (parser' (parse p e false wrapCheck))).
Proof.
  intros Hres. rewrite parse_tagStruct_after, Hres.
  rewrite parse_result in Hres. apply andb_true_iff in Hres as [_ Hf].
  apply loop_bwd_first in Hf as (ie & Hle & Hno & Hcl & Hm).
  unfold cursorIndex in *. exists ie. split; [lia|].
  split; [|by split]. intros x Hx. apply Hno. lia.
Qed.

(** X11. A backward parse that answers [true] has resolved the region
    that ends at the last closing delimiter before the selection start:
    the loop reads a closing delimiter at [innerEnd], which lies before
    the selection start, and reads none between [innerEnd] and the
    selection start. *)
Theorem backward_parse_nearest_closing p e wrapCheck :
  result (parse p e false wrapCheck) = true ->
  exists t, tagStruct (parser' (parse p e false wrapCheck)) = Some t /\
    innerEnd t < selFrom e /\
    delta p (value e) (innerEnd t) = -1 /\
    forall x, innerEnd t < x < selFrom e -> delta p (value e) x <> -1.
Proof.
  intros Hres.
  destruct (parse_backward_true p e wrapCheck Hres)
    as (ie & Hlt & Hno & Hcl & t & m & Ht & Hie & _).
  exists t. rewrite Hie. done.
Qed.

Lemma backward_parse_nearest_closing_witness :
  exists t,
    tagStruct (parser' (parse (pluginParser DEFAULT_SETTINGS)
                          (mkEditor (txt "a |<X>| b |< c") 13 13)
                          false false)) = Some t /\
    innerEnd t < selFrom (mkEditor (txt "a |<X>| b |< c") 13 13) /\
    delta (pluginParser DEFAULT_SETTINGS)
      (value (mkEditor (txt "a |<X>| b |< c") 13 13)) (innerEnd t) = -1 /\
    forall x, innerEnd t < x < selFrom (mkEditor (txt "a |<X>| b |< c") 13 13) ->
              delta (pluginParser DEFAULT_SETTINGS)
                (value (mkEditor (txt "a |<X>| b |< c") 13 13)) x <> -1.
Proof.
  apply (backward_parse_nearest_closing (pluginParser DEFAULT_SETTINGS)
           (mkEditor (txt "a |<X>| b |< c") 13 13) false).
  vm_compute. reflexivity.
Defined.

(** X12. A backward parse that answers [true] has stopped at the opening
    delimiter that matches the closing delimiter at [innerEnd]: over the
    indices from [parentStart] to [innerEnd] opening and closing
    delimiters balance, and over every shorter stretch that ends at
    [innerEnd] the closing ones outnumber the opening ones. *)
Theorem backward_parse_matching_open p e wrapCheck :
  result (parse p e false wrapCheck) = true ->
  exists t, tagStruct (parser' (parse p e false wrapCheck)) = Some t /\
    parentStart t < innerEnd t /\
    nesting p (value e) (parentStart t) (innerEnd t) = 0 /\
    forall j, parentStart t < j <= innerEnd t ->
              nesting p (value e) j (innerEnd t) < 0.
Proof.
  intros Hres.
  destruct (parse_backward_true p e wrapCheck Hres)
    as (ie & _ & _ & _ & t & m & Ht & Hie & Hps & Hm & Hz & Hneg).
  exists t. rewrite Hps, Hie. split; [done|]. split; [lia|].
  unfold nesting. split.
  - replace (Z.to_nat (ie - (ie - Z.of_nat m) + 1)) with (S m) by lia.
    rewrite depth_walk_down_up in Hz.
    by replace (ie - Z.of_nat (S m) + 1) with (ie - Z.of_nat m) in Hz by lia.
  - intros j Hj.
    specialize (Hneg (Z.to_nat (ie - j + 1)) ltac:(lia)).
    rewrite depth_walk_down_up in Hneg.
    by replace (ie - Z.of_nat (Z.to_nat (ie - j + 1)) + 1) with j in Hneg by lia.
Qed.

Lemma backward_parse_matching_open_witness :
  exists t,
    tagStruct (parser' (parse (pluginParser DEFAULT_SETTINGS)
                          (mkEditor (txt "|< z |<a|<b>|c>|") 16 16)
                          false false)) = Some t /\
    parentStart t < innerEnd t /\
    nesting (pluginParser DEFAULT_SETTINGS)
      (value (mkEditor (txt "|< z |<a|<b>|c>|") 16 16))
      (parentStart t) (innerEnd t) = 0 /\
    forall j, parentStart t < j <= innerEnd t ->
              nesting (pluginParser DEFAULT_SETTINGS)
                (value (mkEditor (txt "|< z |<a|<b>|c>|") 16 16))
                j (innerEnd t) < 0.
Proof.
  apply (backward_parse_matching_open (pluginParser DEFAULT_SETTINGS)
           (mkEditor (txt "|< z |<a|<b>|c>|") 16 16) false).
  vm_compute. reflexivity.
Defined.

(** ** The resolved region in the text of the buffer *)

Lemma prefix_drop_split (s d : text) (n : nat) :
  d `prefix_of` drop n s -> drop n s = d ++ drop (n + length d) s.
Proof.
  intros [r Hr]. rewrite <- drop_drop, Hr. by rewrite drop_app_length.
Qed.

Lemma substring_take_drop (s : text) (a b : Z) :
  0 <= a -> a <= b -> b <= len s ->
  substring s a b = take (Z.to_nat (b - a)) (drop (Z.to_nat a) s).
Proof.
  intros Ha Hab Hb. unfold substring. rewrite !clamp_id by lia.
  by rewrite Z.min_l, Z.max_r by lia.
Qed.

Lemma resolved_inner_order p cont t :
  openingDelimiter p <> [] ->
  overlap_free (openingDelimiter p) (closingDelimiter p) = true ->
  resolved p cont t -> innerStart t <= innerEnd t.
Proof.
  intros Ho Hfree Hr. destruct Hr.
  pose proof (len_pos _ Ho) as Hlo.
  destruct (Z_le_gt_dec (innerStart t) (innerEnd t)) as [Hle|Hgt]; [done|].
  exfalso.
  assert (innerEnd t < parentStart t + len (openingDelimiter p)) as Hin by lia.
  pose proof (startsWith_overlap cont _ _ (parentStart t) (innerEnd t)
                res_nonneg0 res_order0 Hin res_open0 res_close0) as Hov.
  rewrite overlap_free_spec in Hov; [done | done |]. unfold len in *. lia.
Qed.

Lemma resolved_framed p cont t :
  openingDelimiter p <> [] -> closingDelimiter p <> [] ->
  overlap_free (openingDelimiter p) (closingDelimiter p) = true ->
  resolved p cont t ->
  framed p cont t (take (Z.to_nat (parentStart t)) cont)
                  (drop (Z.to_nat (parentEnd t)) cont).
Proof.
  intros Ho Hc Hfree Hr.
  pose proof (resolved_inner_order p cont t Ho Hfree Hr) as Hord.
  destruct Hr.
  pose proof (len_pos _ Ho) as Hlo. pose proof (len_pos _ Hc) as Hlc.
  assert (0 <= innerEnd t) as Hie by lia.
  pose proof (startsWith_in_range _ _ _ Hc Hie res_close0) as Hend.
  assert (Hcont : content t =
            take (Z.to_nat (innerEnd t - innerStart t))
                 (drop (Z.to_nat (innerStart t)) cont)).
  { rewrite res_content0. apply substring_take_drop; lia. }
  assert (Hlc' : len (content t) = innerEnd t - innerStart t).
  { rewrite Hcont. unfold len in *. rewrite length_take, length_drop. lia. }
  unfold framed. split; [|unfold len in *; rewrite length_take; lia].
  unfold startsWith in res_open0, res_close0.
  apply prefixb_prefix, prefix_drop_split in res_open0.
  apply prefixb_prefix, prefix_drop_split in res_close0.
  rewrite <- (take_drop (Z.to_nat (parentStart t)) cont) at 1.
  f_equal. rewrite res_open0. f_equal.
  replace (Z.to_nat (parentStart t) + length (openingDelimiter p))%nat
    with (Z.to_nat (innerStart t)) by (unfold len in *; lia).
  rewrite <- (take_drop (Z.to_nat (innerEnd t - innerStart t))
                (drop (Z.to_nat (innerStart t)) cont)) at 1.
  rewrite <- Hcont. f_equal. rewrite drop_drop.
  replace (Z.to_nat (innerStart t) + Z.to_nat (innerEnd t - innerStart t))%nat
    with (Z.to_nat (innerEnd t)) by lia.
  rewrite res_close0. f_equal. f_equal. unfold len in *. lia.
Qed.

Lemma parse_true_framed p e forward wrapCheck :
  openingDelimiter p <> [] -> closingDelimiter p <> [] ->
  overlap_free (openingDelimiter p) (closingDelimiter p) = true ->
  valid_selection e ->
  result (parse p e forward wrapCheck) = true ->
  exists t pre post,
    tagStruct (parser' (parse p e forward wrapCheck)) = Some t /\
    framed p (value e) t pre post.
Proof.
  intros Ho Hc Hfree (Hv1 & Hv2 & Hv3) Hres.
  destruct (parse_true_resolved p e forward wrapCheck) as (t & Ht & Hr);
    [lia | done |].
  exists t, (take (Z.to_nat (parentStart t)) (value e)),
    (drop (Z.to_nat (parentEnd t)) (value e)).
  split; [done|]. by apply resolved_framed.
Qed.

(** X13. For non-empty delimiters that cannot overlap, whenever [parse]
    answers [true] the buffer reads: some text, the opening delimiter, the
    stored content, the closing delimiter, some text; and [parentStart],
    [innerStart], [innerEnd], [parentEnd] are the offsets of those four
    cuts.  The stored content is the text between the two delimiters. *)
Theorem parse_region_text p e forward wrapCheck :
  openingDelimiter p <> [] -> closingDelimiter p <> [] ->
  overlap_free (openingDelimiter p) (closingDelimiter p) = true ->
  valid_selection e ->
  result (parse p e forward wrapCheck) = true ->
  exists t pre post,
    tagStruct (parser' (parse p e forward wrapCheck)) = Some t /\
    value e = pre ++ openingDelimiter p ++ content t
                  ++ closingDelimiter p ++ post /\
    len pre = parentStart t /\
    len (pre ++ openingDelimiter p) = innerStart t /\
    len (pre ++ openingDelimiter p ++ content t) = innerEnd t /\
    len (pre ++ openingDelimiter p ++ content t ++ closingDelimiter p)
    = parentEnd t.
Proof.
  intros Ho Hc Hfree Hv Hres.
  destruct (parse_true_framed p e forward wrapCheck Ho Hc Hfree Hv Hres)
    as (t & pre & post & Ht & Hval & H1 & H2 & H3 & H4).
  exists t, pre, post. rewrite !len_app. repeat split; try done; lia.
Qed.

Lemma parse_region_text_witness :
  exists t pre post,
    tagStruct (parser' (parse (pluginParser DEFAULT_SETTINGS)
                          (mkEditor (txt "a |<b|<c>|>| d") 14 14)
                          false false)) = Some t /\
    value (mkEditor (txt "a |<b|<c>|>| d") 14 14)
    = pre ++ openingDelimiter (pluginParser DEFAULT_SETTINGS) ++ content t
          ++ closingDelimiter (pluginParser DEFAULT_SETTINGS) ++ post /\
    len pre = parentStart t /\
    len (pre ++ openingDelimiter (pluginParser DEFAULT_SETTINGS))
    = innerStart t /\
    len (pre ++ openingDelimiter (pluginParser DEFAULT_SETTINGS) ++ content t)
    = innerEnd t /\
    len (pre ++ openingDelimiter (pluginParser DEFAULT_SETTINGS) ++ content t
             ++ closingDelimiter (pluginParser DEFAULT_SETTINGS))
    = parentEnd t.
Proof.
  apply (parse_region_text (pluginParser DEFAULT_SETTINGS)
           (mkEditor (txt "a |<b|<c>|>| d") 14 14) false false).
  - discriminate.
  - discriminate.
  - reflexivity.
  - unfold valid_selection, len. simpl. lia.
  - vm_compute. reflexivity.
Defined.

(** ** Highlighting, inner selection and removal of a found region *)

Lemma substring_middle (a m b : text) :
  substring (a ++ m ++ b) (len a) (len a + len m) = m.
Proof.
  pose proof (len_nonneg a). pose proof (len_nonneg m).
  pose proof (len_nonneg b).
  rewrite substring_take_drop by (rewrite ?len_app; lia).
  unfold len. rewrite Nat2Z.id, drop_app_length.
  apply take_app_length'. lia.
Qed.

Lemma framed_outer p cont t pre post :
  framed p cont t pre post ->
  substring cont (parentStart t) (parentEnd t) =
  openingDelimiter p ++ content t ++ closingDelimiter p.
Proof.
  intros (Hc & H1 & H2 & H3 & H4). subst cont.
  replace (parentEnd t)
    with (len pre + len (openingDelimiter p ++ content t
                           ++ closingDelimiter p))
    by (rewrite !len_app; lia).
  rewrite <- H1.
  replace (pre ++ openingDelimiter p ++ content t
               ++ closingDelimiter p ++ post)
    with (pre ++ (openingDelimiter p ++ content t ++ closingDelimiter p)
              ++ post)
    by (by rewrite <- !app_assoc).
  apply substring_middle.
Qed.

Lemma framed_inner p cont t pre post :
  framed p cont t pre post ->
  substring cont (innerStart t) (innerEnd t) = content t.
Proof.
  intros (Hc & H1 & H2 & H3 & H4). subst cont.
  replace (innerStart t) with (len (pre ++ openingDelimiter p))
    by (rewrite len_app; lia).
  replace (innerEnd t)
    with (len (pre ++ openingDelimiter p) + len (content t))
    by (rewrite len_app; lia).
  replace (pre ++ openingDelimiter p ++ content t
               ++ closingDelimiter p ++ post)
    with ((pre ++ openingDelimiter p) ++ content t
              ++ closingDelimiter p ++ post)
    by (by rewrite <- !app_assoc).
  apply substring_middle.
Qed.

Lemma framed_bounds p cont t pre post :
  framed p cont t pre post ->
  0 <= parentStart t /\ parentStart t <= innerStart t /\
  innerStart t <= innerEnd t /\ innerEnd t <= parentEnd t /\
  parentEnd t <= len cont.
Proof.
  intros (Hc & H1 & H2 & H3 & H4). subst cont. rewrite !len_app.
  pose proof (len_nonneg pre). pose proof (len_nonneg post).
  pose proof (len_nonneg (openingDelimiter p)).
  pose proof (len_nonneg (closingDelimiter p)).
  pose proof (len_nonneg (content t)). lia.
Qed.

Lemma prefixb_refl (d : text) : prefixb d d = true.
Proof. by apply prefixb_prefix. Qed.

Lemma prefixb_app (d s : text) : prefixb d (d ++ s) = true.
Proof. apply prefixb_prefix. by apply prefix_app_r. Qed.

(** Highlighting a framed region selects it, and the selection passes the
    delimiter test of [checkInTag]. *)
Lemma highlight_framed p e t pre post :
  openingDelimiter p <> [] ->
  tagStruct p = Some t -> framed p (value e) t pre post ->
  let e1 := snd (highlightTag p e) in
  value e1 = value e /\
  selFrom e1 = parentStart t /\ selTo e1 = parentEnd t /\
  getSelection e1 =
    openingDelimiter p ++ content t ++ closingDelimiter p /\
  checkInTag p e1 = true.
Proof.
  intros Ho Hts Hfr. pose proof (framed_bounds _ _ _ _ _ Hfr) as Hb.
  pose proof (len_pos _ Ho) as Hlo.
  destruct Hfr as (Hc & H1 & H2 & H3 & H4).
  assert (Hfr : framed p (value e) t pre post) by done.
  unfold highlightTag. rewrite Hts. simpl.
  unfold setSelection. rewrite !clamp_id by lia.
  rewrite Z.min_l, Z.max_r by lia.
  assert (Hsel : getSelection
            {| value := value e; selFrom := parentStart t;
               selTo := parentEnd t |} =
            openingDelimiter p ++ content t ++ closingDelimiter p)
    by (apply (framed_outer _ _ _ _ _ Hfr)).
  repeat split; try done.
  unfold checkInTag. simpl selFrom. simpl selTo. rewrite Hsel.
  destruct (Z.ltb_spec 0 (parentEnd t - parentStart t)) as [_|]; [|lia].
  apply andb_true_iff. split.
  - unfold startsWith. simpl. apply prefixb_app.
  - unfold endsWith. apply andb_true_iff. split.
    + apply Nat.leb_le. rewrite !length_app. lia.
    + unfold startsWith, len.
      replace (Z.to_nat _)
        with (length (openingDelimiter p ++ content t))
        by (rewrite !length_app; lia).
      rewrite app_assoc, drop_app_length. apply prefixb_refl.
Qed.

Lemma highlight_inner_framed p e t pre post :
  tagStruct p = Some t -> framed p (value e) t pre post ->
  let e1 := snd (highlightInnerTag p e) in
  value e1 = value e /\
  selFrom e1 = innerStart t /\ selTo e1 = innerEnd t /\
  getSelection e1 = content t.
Proof.
  intros Hts Hfr. pose proof (framed_bounds _ _ _ _ _ Hfr) as Hb.
  unfold highlightInnerTag. rewrite Hts. simpl.
  unfold setSelection. rewrite !clamp_id by lia.
  rewrite Z.min_l, Z.max_r by lia.
  repeat split; try done. apply (framed_inner _ _ _ _ _ Hfr).
Qed.

(** Removal on a framed region: the delimiters go, the rest stays; with
    delimiters of equal length the content ends up selected. *)
Lemma accept_framed p e t pre post :
  tagStruct p = Some t -> framed p (value e) t pre post ->
  let a := acceptDefaultText p e in
  fst a = true /\
  value (snd a) = pre ++ content t ++ post /\
  (len (openingDelimiter p) = len (closingDelimiter p) ->
   getSelection (snd a) = content t).
Proof.
  intros Hts Hfr. pose proof (framed_bounds _ _ _ _ _ Hfr) as Hb.
  destruct Hfr as (Hc & H1 & H2 & H3 & H4).
  pose proof (len_nonneg post) as Hpost.
  assert (Hv : value (snd (acceptDefaultText p e)) = pre ++ content t ++ post).
  { rewrite (acceptDefaultText_value p e t Hts) by lia.
    rewrite Hc. f_equal.
    - apply take_app_length'. unfold len in H1. lia.
    - f_equal.
      replace (pre ++ openingDelimiter p ++ content t
                   ++ closingDelimiter p ++ post)
        with ((pre ++ openingDelimiter p ++ content t
                   ++ closingDelimiter p) ++ post)
        by (by rewrite <- !app_assoc).
      apply drop_app_length'. unfold len in *. rewrite !length_app. lia. }
  simpl. split; [unfold acceptDefaultText; by rewrite Hts|].
  split; [done|]. intros Heq.
  revert Hv. unfold acceptDefaultText. rewrite Hts. simpl. intros Hv.
  unfold getSelection, setSelection. simpl.
  set (v := take _ _ ++ content t ++ drop _ _) in *.
  assert (Hlv : len v = len pre + len (content t) + len post)
    by (rewrite Hv, !len_app; lia).
  pose proof (len_nonneg (content t)).
  rewrite !clamp_id by lia. rewrite Z.min_l, Z.max_r by lia.
  rewrite Hv.
  replace (innerStart t - len (openingDelimiter p)) with (len pre) by lia.
  replace (innerEnd t - len (closingDelimiter p))
    with (len pre + len (content t)) by lia.
  apply substring_middle.
Qed.

(** Where the selection is after a removal, for delimiters of equal
    length. *)
Lemma accept_selection p e t pre post :
  tagStruct p = Some t -> framed p (value e) t pre post ->
  len (openingDelimiter p) = len (closingDelimiter p) ->
  selFrom (snd (acceptDefaultText p e)) = parentStart t /\
  selTo (snd (acceptDefaultText p e)) = parentStart t + len (content t).
Proof.
  intros Hts Hfr Heq. pose proof (framed_bounds _ _ _ _ _ Hfr) as Hb.
  destruct (accept_framed p e t pre post Hts Hfr) as (_ & Hv & _).
  destruct Hfr as (Hc & H1 & H2 & H3 & H4).
  pose proof (len_nonneg post) as Hpost.
  pose proof (len_nonneg (content t)) as Hcl.
  revert Hv. unfold acceptDefaultText. rewrite Hts. simpl. intros Hv.
  set (v := take _ _ ++ content t ++ drop _ _) in *.
  assert (Hlv : len v = len pre + len (content t) + len post)
    by (rewrite Hv, !len_app; lia).
  rewrite !clamp_id by lia. rewrite Z.min_l, Z.max_r by lia. lia.
Qed.

Lemma parse_true_parser p e forward wrapCheck :
  result (parse p e forward wrapCheck) = true ->
  parser' (parse p e forward wrapCheck) =
  with_tagStruct p (tagStruct (parser' (parse p e forward wrapCheck))) /\
  editor' (parse p e forward wrapCheck) = e.
Proof.
  intros Hres.
  pose proof (parse_frame p e forward wrapCheck) as (_ & Ho & Hc & Hs & He).
  split.
  - destruct (parser' (parse p e forward wrapCheck)) as [s o c ts].
    simpl in *. unfold with_tagStruct. simpl. by subst.
  - destruct He as [He|He]; [congruence | done].
Qed.

Lemma advance_true p e forward :
  (advance p e forward).1.1 = true ->
  result (parse p e forward false) = true /\
  advance p e forward =
  (true, parser' (parse p e forward false),
   snd (highlightTag (parser' (parse p e forward false)) e)).
Proof.
  unfold advance.
  destruct (result (parse p e forward false)) eqn:Hres; simpl;
    [|discriminate].
  intros _. split; [done|].
  by destruct (parse_true_parser p e forward false Hres) as (_ & ->).
Qed.

(** X14. For non-empty delimiters that cannot overlap, highlighting after
    a successful [parse] selects exactly the outer span: the selection
    runs from [parentStart] to [parentEnd], its text is the opening
    delimiter, the content and the closing delimiter, and [checkInTag]
    then reports that the selection is a tag. *)
Theorem highlight_selects_tag p e forward wrapCheck :
  openingDelimiter p <> [] -> closingDelimiter p <> [] ->
  overlap_free (openingDelimiter p) (closingDelimiter p) = true ->
  valid_selection e ->
  result (parse p e forward wrapCheck) = true ->
  let r := parse p e forward wrapCheck in
  let e1 := snd (highlightTag (parser' r) (editor' r)) in
  exists t, tagStruct (parser' r) = Some t /\
    selFrom e1 = parentStart t /\ selTo e1 = parentEnd t /\
    getSelection e1 =
      openingDelimiter p ++ content t ++ closingDelimiter p /\
    checkInTag (parser' r) e1 = true.
Proof.
  intros Ho Hc Hfree Hv Hres. simpl.
  destruct (parse_true_framed p e forward wrapCheck Ho Hc Hfree Hv Hres)
    as (t & pre & post & Ht & Hfr).
  destruct (parse_true_parser p e forward wrapCheck Hres) as (Hp & ->).
  rewrite Hp, Ht. exists t. split; [done|].
  by destruct (highlight_framed (with_tagStruct p (Some t)) e t pre post
                 Ho eq_refl Hfr) as (_ & ? & ? & ? & ?).
Qed.

Lemma highlight_selects_tag_witness :
  let p := pluginParser DEFAULT_SETTINGS in
  let r := parse p (mkEditor (txt "a |<b|<c>|>| d") 0 0) true false in
  let e1 := snd (highlightTag (parser' r) (editor' r)) in
  exists t, tagStruct (parser' r) = Some t /\
    selFrom e1 = parentStart t /\ selTo e1 = parentEnd t /\
    getSelection e1 =
      openingDelimiter p ++ content t ++ closingDelimiter p /\
    checkInTag (parser' r) e1 = true.
Proof.
  apply (highlight_selects_tag (pluginParser DEFAULT_SETTINGS)
           (mkEditor (txt "a |<b|<c>|>| d") 0 0) true false).
  - discriminate.
  - discriminate.
  - reflexivity.
  - unfold valid_selection, len. simpl. lia.
  - vm_compute. reflexivity.
Defined.

(** X15. "Next tag" (or "previous tag") followed by "select inner
    content": when the navigation command has found a region, for
    non-empty delimiters that cannot overlap, the selection it leaves is
    recognised as a tag, so "select inner content" does not parse again;
    it keeps the Match State and selects the inner span, whose text is the
    stored content. *)
Theorem select_inner_after_advance p e forward :
  openingDelimiter p <> [] -> closingDelimiter p <> [] ->
  overlap_free (openingDelimiter p) (closingDelimiter p) = true ->
  valid_selection e ->
  (advance p e forward).1.1 = true ->
  let p1 := (advance p e forward).1.2 in
  let e1 := (advance p e forward).2 in
  let s := selectInnerContent p1 e1 in
  s.1 = p1 /\
  getInnerTagPosition p1 = Some (selFrom s.2, selTo s.2) /\
  getTagContent p1 = Some (getSelection s.2) /\
  value s.2 = value e.
Proof.
  intros Ho Hc Hfree Hv Hadv.
  destruct (advance_true p e forward Hadv) as (Hres & ->). simpl.
  destruct (parse_true_framed p e forward false Ho Hc Hfree Hv Hres)
    as (t & pre & post & Ht & Hfr).
  destruct (parse_true_parser p e forward false Hres) as (Hp & _).
  rewrite Hp, Ht.
  set (p1 := with_tagStruct p (Some t)).
  destruct (highlight_framed p1 e t pre post Ho eq_refl Hfr)
    as (Hval & _ & _ & _ & Hin).
  unfold selectInnerContent. rewrite Hin. cbn [negb fst snd].
  assert (Hfr1 : framed p1 (value (snd (highlightTag p1 e))) t pre post)
    by (by rewrite Hval).
  destruct (highlight_inner_framed p1 _ t pre post eq_refl Hfr1)
    as (Hv2 & Hs1 & Hs2 & Hsel).
  unfold getInnerTagPosition, getTagContent. cbn [tagStruct p1 with_tagStruct].
  rewrite Hs1, Hs2, Hsel, Hv2, Hval. done.
Qed.

Lemma select_inner_after_advance_witness :
  let p := pluginParser DEFAULT_SETTINGS in
  let e := mkEditor (txt "a |<b|<c>|>| d") 14 14 in
  let p1 := (advance p e false).1.2 in
  let e1 := (advance p e false).2 in
  let s := selectInnerContent p1 e1 in
  s.1 = p1 /\
  getInnerTagPosition p1 = Some (selFrom s.2, selTo s.2) /\
  getTagContent p1 = Some (getSelection s.2) /\
  value s.2 = value e.
Proof.
  apply (select_inner_after_advance (pluginParser DEFAULT_SETTINGS)
           (mkEditor (txt "a |<b|<c>|>| d") 14 14) false).
  - discriminate.
  - discriminate.
  - reflexivity.
  - unfold valid_selection, len. simpl. lia.
  - vm_compute. reflexivity.
Defined.

(** X16. "Remove tag" from a cursor or a selection that is not itself a
    tag: when the forward parse finds a region, for non-empty delimiters
    that cannot overlap, the command takes the two delimiters of that
    region out of the buffer and changes nothing else.  With [t] the Match
    State the parse has left, the buffer was [pre], the opening delimiter,
    the content, the closing delimiter, [post], with [pre] ending at
    [parentStart t] and the closing delimiter ending at [parentEnd t]; it
    becomes [pre], the content, [post].  The parser is the one the parse
    left. *)
Theorem remove_tag_takes_delimiters_out p e :
  openingDelimiter p <> [] -> closingDelimiter p <> [] ->
  overlap_free (openingDelimiter p) (closingDelimiter p) = true ->
  valid_selection e ->
  checkInTag p e = false ->
  result (parse p e true false) = true ->
  let k := keepTagDefaultContent p e in
  exists t pre post,
    tagStruct (parser' (parse p e true false)) = Some t /\
    k.1.1 = true /\ k.1.2 = parser' (parse p e true false) /\
    value e = pre ++ openingDelimiter p ++ content t
                  ++ closingDelimiter p ++ post /\
    len pre = parentStart t /\
    len (pre ++ openingDelimiter p ++ content t ++ closingDelimiter p)
    = parentEnd t /\
    value k.2 = pre ++ content t ++ post.
Proof.
  intros Ho Hc Hfree Hv Hin Hres. simpl.
  destruct (parse_true_framed p e true false Ho Hc Hfree Hv Hres)
    as (t & pre & post & Ht & Hfr).
  destruct (parse_true_parser p e true false Hres) as (Hp & He).
  exists t, pre, post. split; [done|].
  unfold keepTagDefaultContent. rewrite Hin, Hres, He, Hp, Ht.
  set (p1 := with_tagStruct p (Some t)).
  destruct (accept_framed p1 e t pre post eq_refl Hfr) as (Hok & Hval & _).
  destruct (acceptDefaultText p1 e) as [ok e1]. simpl in *.
  destruct Hfr as (Hcont & H1 & H2 & H3 & H4).
  rewrite !len_app. repeat split; try done; lia.
Qed.

Lemma remove_tag_takes_delimiters_out_witness :
  let p := pluginParser DEFAULT_SETTINGS in
  let e := mkEditor (txt "|<X>| |<X>|") 5 5 in
  let k := keepTagDefaultContent p e in
  exists t pre post,
    tagStruct (parser' (parse p e true false)) = Some t /\
    k.1.1 = true /\ k.1.2 = parser' (parse p e true false) /\
    value e = pre ++ openingDelimiter p ++ content t
                  ++ closingDelimiter p ++ post /\
    len pre = parentStart t /\
    len (pre ++ openingDelimiter p ++ content t ++ closingDelimiter p)
    = parentEnd t /\
    value k.2 = pre ++ content t ++ post.
Proof.
  apply (remove_tag_takes_delimiters_out (pluginParser DEFAULT_SETTINGS)
           (mkEditor (txt "|<X>| |<X>|") 5 5)).
  - discriminate.
  - discriminate.
  - reflexivity.
  - unfold valid_selection, len. simpl. lia.
  - reflexivity.
  - vm_compute. reflexivity.
Defined.

(** X17. "Next tag" (or "previous tag") followed by "remove tag": when
    the navigation command has found a region, for non-empty delimiters
    that cannot overlap, the selection it leaves passes [checkInTag], so
    "remove tag" does not parse again: it works on the Match State [t] of
    the navigation command and leaves the parser as it is.  The buffer was
    [pre], the opening delimiter, the content, the closing delimiter,
    [post], with [pre] ending at [parentStart t] and the closing delimiter
    ending at [parentEnd t]; it becomes [pre], the content, [post].  When
    the two delimiters have the same length, the selection afterwards
    begins at [parentStart t] and its text is the content. *)
Theorem remove_tag_after_advance p e forward :
  openingDelimiter p <> [] -> closingDelimiter p <> [] ->
  overlap_free (openingDelimiter p) (closingDelimiter p) = true ->
  len (openingDelimiter p) = len (closingDelimiter p) ->
  valid_selection e ->
  (advance p e forward).1.1 = true ->
  let p1 := (advance p e forward).1.2 in
  let e1 := (advance p e forward).2 in
  let k := keepTagDefaultContent p1 e1 in
  exists t pre post,
    tagStruct p1 = Some t /\ checkInTag p1 e1 = true /\
    k.1.1 = true /\ k.1.2 = p1 /\
    value e = pre ++ openingDelimiter p ++ content t
                  ++ closingDelimiter p ++ post /\
    len pre = parentStart t /\
    len (pre ++ openingDelimiter p ++ content t ++ closingDelimiter p)
    = parentEnd t /\
    value k.2 = pre ++ content t ++ post /\
    selFrom k.2 = parentStart t /\
    selTo k.2 = parentStart t + len (content t) /\
    getSelection k.2 = content t.
Proof.
  intros Ho Hc Hfree Hlen Hv Hadv.
  destruct (advance_true p e forward Hadv) as (Hres & ->). simpl.
  destruct (parse_true_framed p e forward false Ho Hc Hfree Hv Hres)
    as (t & pre & post & Ht & Hfr).
  destruct (parse_true_parser p e forward false Hres) as (Hp & _).
  rewrite Hp, Ht. exists t, pre, post.
  set (p1 := with_tagStruct p (Some t)).
  destruct (highlight_framed p1 e t pre post Ho eq_refl Hfr)
    as (Hval & _ & _ & _ & Hin).
  split; [done|]. split; [done|].
  unfold keepTagDefaultContent. rewrite Hin.
  assert (Hfr1 : framed p1 (value (snd (highlightTag p1 e))) t pre post)
    by (by rewrite Hval).
  destruct (accept_framed p1 _ t pre post eq_refl Hfr1) as (Hok & Hv2 & Hsel).
  destruct (accept_selection p1 _ t pre post eq_refl Hfr1 Hlen) as (Hs1 & Hs2).
  destruct (acceptDefaultText p1 (snd (highlightTag p1 e))) as [ok e2].
  simpl in *.
  destruct Hfr as (Hcont & H1 & H2 & H3 & H4).
  rewrite !len_app.
  repeat split; try done; try lia. by apply Hsel.
Qed.

Lemma remove_tag_after_advance_witness :
  let p := pluginParser DEFAULT_SETTINGS in
  let e := mkEditor (txt "|<X>| |<X>|") 5 5 in
  let p1 := (advance p e true).1.2 in
  let e1 := (advance p e true).2 in
  let k := keepTagDefaultContent p1 e1 in
  exists t pre post,
    tagStruct p1 = Some t /\ checkInTag p1 e1 = true /\
    k.1.1 = true /\ k.1.2 = p1 /\
    value e = pre ++ openingDelimiter p ++ content t
                  ++ closingDelimiter p ++ post /\
    len pre = parentStart t /\
    len (pre ++ openingDelimiter p ++ content t ++ closingDelimiter p)
    = parentEnd t /\
    value k.2 = pre ++ content t ++ post /\
    selFrom k.2 = parentStart t /\
    selTo k.2 = parentStart t + len (content t) /\
    getSelection k.2 = content t.
Proof.
  apply (remove_tag_after_advance (pluginParser DEFAULT_SETTINGS)
           (mkEditor (txt "|<X>| |<X>|") 5 5) true).
  - discriminate.
  - discriminate.
  - reflexivity.
  - reflexivity.
  - unfold valid_selection, len. simpl. lia.
  - vm_compute. reflexivity.
Defined.

(** ** Navigating repeatedly *)

Lemma advance_selection p e forward :
  closingDelimiter p <> [] -> valid_selection e ->
  (advance p e forward).1.1 = true ->
  exists t, (advance p e forward).1.2 = with_tagStruct p (Some t) /\
    value (advance p e forward).2 = value e /\
    selFrom (advance p e forward).2 = parentStart t /\
    selTo (advance p e forward).2 = parentEnd t.
Proof.
  intros Hc (Hv1 & Hv2 & Hv3) Hadv.
  destruct (advance_true p e forward Hadv) as (Hres & ->). simpl.
  destruct (parse_true_resolved p e forward false) as (t & Ht & Hr);
    [lia | done |].
  destruct (parse_true_parser p e forward false Hres) as (Hp & _).
  rewrite Hp, Ht. exists t. split; [done|].
  destruct Hr. pose proof (len_pos _ Hc) as Hlc.
  assert (0 <= innerEnd t) as Hie by lia.
  pose proof (startsWith_in_range _ _ _ Hc Hie res_close0) as Hend.
  unfold highlightTag, setSelection. simpl.
  rewrite !clamp_id by lia. rewrite Z.min_l, Z.max_r by lia. done.
Qed.

(** X18. "Next tag" twice: when both commands find a region, the second
    region begins at or after the end of the first ([parentEnd] of the
    first is at most [parentStart] of the second); the second command
    never finds the first region again, nor a region nested in it. *)
Theorem next_tag_moves_past_region p e :
  closingDelimiter p <> [] -> valid_selection e ->
  (advance p e true).1.1 = true ->
  (advance (advance p e true).1.2 (advance p e true).2 true).1.1 = true ->
  exists t1 t2,
    tagStruct (advance p e true).1.2 = Some t1 /\
    tagStruct (advance (advance p e true).1.2 (advance p e true).2 true).1.2
    = Some t2 /\
    parentEnd t1 <= parentStart t2.
Proof.
  intros Hc Hv Hadv1 Hadv2.
  destruct (advance_selection p e true Hc Hv Hadv1)
    as (t1 & Hp1 & Hval & Hfrom & Hto).
  destruct (advance_true _ _ _ Hadv2) as (Hres2 & Heq2).
  destruct (parse_forward_true _ _ _ Hres2)
    as (ps & Hle & _ & _ & t2 & m & Ht2 & Hps & _).
  exists t1, t2. rewrite Heq2. simpl.
  split; [by rewrite Hp1|]. split; [done|]. lia.
Qed.

Lemma next_tag_moves_past_region_witness :
  let p := pluginParser DEFAULT_SETTINGS in
  let e := mkEditor (txt "|<a|<b>|>| c |<d>|") 0 0 in
  exists t1 t2,
    tagStruct (advance p e true).1.2 = Some t1 /\
    tagStruct (advance (advance p e true).1.2 (advance p e true).2 true).1.2
    = Some t2 /\
    parentEnd t1 <= parentStart t2.
Proof.
  apply (next_tag_moves_past_region (pluginParser DEFAULT_SETTINGS)
           (mkEditor (txt "|<a|<b>|>| c |<d>|") 0 0)).
  - discriminate.
  - unfold valid_selection, len. simpl. lia.
  - vm_compute. reflexivity.
  - vm_compute. reflexivity.
Defined.

(** X19. "Previous tag" twice: when both commands find a region, the
    closing delimiter of the second region begins before the first region
    ([innerEnd] of the second is below [parentStart] of the first). *)
Theorem previous_tag_moves_before_region p e :
  closingDelimiter p <> [] -> valid_selection e ->
  (advance p e false).1.1 = true ->
  (advance (advance p e false).1.2 (advance p e false).2 false).1.1 = true ->
  exists t1 t2,
    tagStruct (advance p e false).1.2 = Some t1 /\
    tagStruct (advance (advance p e false).1.2 (advance p e false).2 false).1.2
    = Some t2 /\
    innerEnd t2 < parentStart t1.
Proof.
  intros Hc Hv Hadv1 Hadv2.
  destruct (advance_selection p e false Hc Hv Hadv1)
    as (t1 & Hp1 & Hval & Hfrom & Hto).
  destruct (advance_true _ _ _ Hadv2) as (Hres2 & Heq2).
  destruct (parse_backward_true _ _ _ Hres2)
    as (ie & Hlt & _ & _ & t2 & m & Ht2 & Hie & _).
  exists t1, t2. rewrite Heq2. simpl.
  split; [by rewrite Hp1|]. split; [done|]. lia.
Qed.

Lemma previous_tag_moves_before_region_witness :
  let p := pluginParser DEFAULT_SETTINGS in
  let e := mkEditor (txt "|<a>| c |<d|<e>|>|") 18 18 in
  exists t1 t2,
    tagStruct (advance p e false).1.2 = Some t1 /\
    tagStruct (advance (advance p e false).1.2 (advance p e false).2 false).1.2
    = Some t2 /\
    innerEnd t2 < parentStart t1.
Proof.
  apply (previous_tag_moves_before_region (pluginParser DEFAULT_SETTINGS)
           (mkEditor (txt "|<a>| c |<d|<e>|>|") 18 18)).
  - discriminate.
  - unfold valid_selection, len. simpl. lia.
  - vm_compute. reflexivity.
  - vm_compute. reflexivity.
Defined.

(** ** One region and nested regions, from other cursors *)

(** X20. In a buffer whose only opening delimiter is at [o] and whose only
    closing delimiter is at [c], after it, a backward parse from any
    selection that starts after the beginning of the closing delimiter
    answers [true] with [parentStart = o] and [parentEnd] just past the
    closing delimiter. *)
Theorem backward_parse_single_region p e o c :
  one_region (value e) (openingDelimiter p) (closingDelimiter p) o c ->
  c < selFrom e <= len (value e) ->
  result (parse p e false false) = true /\
  getTagPosition (parser' (parse p e false false))
  = Some (o, c + len (closingDelimiter p)).
Proof.
  intros Hone Hsel.
  destruct (parse_found p e false (Some (region p (value e) o c)))
    as (Hr & Hp & _).
  { unfold first_scan, cursorIndex.
    apply (backward_scan_one_region p (value e) o c Hone). lia. }
  split; [done|]. by rewrite Hp.
Qed.

Lemma backward_parse_single_region_witness :
  result (parse (pluginParser DEFAULT_SETTINGS)
            (mkEditor (txt "before |<X>| after") 11 15) false false) = true /\
  getTagPosition
    (parser' (parse (pluginParser DEFAULT_SETTINGS)
                (mkEditor (txt "before |<X>| after") 11 15) false false))
  = Some (7, 10 + len (closingDelimiter (pluginParser DEFAULT_SETTINGS))).
Proof.
  apply (backward_parse_single_region (pluginParser DEFAULT_SETTINGS)
           (mkEditor (txt "before |<X>| after") 11 15) 7 10).
  - repeat split; first [discriminate | reflexivity].
  - unfold len. simpl. lia.
Defined.

Section NestedRegionsFromInside.
Variables (p : Parser) (cont : text) (o1 o2 c1 c2 : Z).
Hypothesis Hnest :
  nested_regions cont (openingDelimiter p) (closingDelimiter p) o1 o2 c1 c2.

Let Hr := nested_range p cont o1 o2 c1 c2 Hnest.
Let quiet_at := nested_quiet p cont o1 o2 c1 c2 Hnest.
Let open_at := nested_open p cont o1 o2 c1 c2 Hnest.
Let close_at := nested_close p cont o1 o2 c1 c2 Hnest.
Let not_open_at := nested_not_open p cont o1 o2 c1 c2 Hnest.

(** Forward from inside the outer region, before the inner one. *)
Lemma forward_scan_nested_inner start ts :
  o1 < start <= o2 ->
  outcome (loop p cont true (scan_indices true start (len cont)) false ts)
  = (true, Some (region p cont o2 c1)).
Proof.
  intros Hs.
  rewrite (scan_indices_up_split start (len cont) o2) by lia.
  rewrite outcome_skip.
  2:{ intros i Hi%elem_of_walk_up. apply quiet_at; lia. }
  erewrite outcome_next.
  2:{ rewrite body_opening by (apply open_at; by right). reflexivity. }
  rewrite (walk_up_split _ (o2 + 1) c1) by lia.
  rewrite outcome_skip.
  2:{ intros i Hi%elem_of_walk_up. apply quiet_at; lia. }
  erewrite outcome_found; [reflexivity|].
  rewrite body_closing
    by ((apply not_open_at; lia) || (apply close_at; by left)).
  reflexivity.
Qed.

(** Backward from after the last closing delimiter. *)
Lemma backward_scan_nested_outer start ts :
  c2 <= start < len cont ->
  outcome (loop p cont false (scan_indices false start (len cont)) false ts)
  = (true, Some (region p cont o1 c2)).
Proof.
  intros Hs.
  rewrite (scan_indices_down_split start c2) by lia.
  rewrite outcome_skip.
  2:{ intros i Hi%elem_of_walk_down. apply quiet_at; lia. }
  erewrite outcome_next.
  2:{ rewrite body_closing
        by ((apply not_open_at; lia) || (apply close_at; by right)).
      reflexivity. }
  rewrite (walk_down_split _ (c2 - 1) c1) by lia.
  rewrite outcome_skip.
  2:{ intros i Hi%elem_of_walk_down. apply quiet_at; lia. }
  erewrite outcome_next.
  2:{ rewrite body_closing
        by ((apply not_open_at; lia) || (apply close_at; by left)).
      reflexivity. }
  rewrite (walk_down_split _ (c1 - 1) o2) by lia.
  rewrite outcome_skip.
  2:{ intros i Hi%elem_of_walk_down. apply quiet_at; lia. }
  erewrite outcome_next.
  2:{ rewrite body_opening by (apply open_at; by right). reflexivity. }
  rewrite (walk_down_split _ (o2 - 1) o1) by lia.
  rewrite outcome_skip.
  2:{ intros i Hi%elem_of_walk_down. apply quiet_at; lia. }
  erewrite outcome_found; [reflexivity|].
  rewrite body_opening by (apply open_at; by left).
  reflexivity.
Qed.

(** Backward from between the two closing delimiters. *)
Lemma backward_scan_nested_inner start ts :
  c1 <= start < c2 ->
  outcome (loop p cont false (scan_indices false start (len cont)) false ts)
  = (true, Some (region p cont o2 c1)).
Proof.
  intros Hs.
  rewrite (scan_indices_down_split start c1) by lia.
  rewrite outcome_skip.
  2:{ intros i Hi%elem_of_walk_down. apply quiet_at; lia. }
  erewrite outcome_next.
  2:{ rewrite body_closing
        by ((apply not_open_at; lia) || (apply close_at; by left)).
      reflexivity. }
  rewrite (walk_down_split _ (c1 - 1) o2) by lia.
  rewrite outcome_skip.
  2:{ intros i Hi%elem_of_walk_down. apply quiet_at; lia. }
  erewrite outcome_found; [reflexivity|].
  rewrite body_opening by (apply open_at; by right).
  reflexivity.
Qed.
End NestedRegionsFromInside.

(** X21. In a buffer of shape [O O C C], a forward parse from a cursor
    inside the outer region, after the start of the first opening
    delimiter and at or before the second one, resolves the inner region:
    [parentStart] is the second opening delimiter and [parentEnd] is just
    past the first closing delimiter. *)
Theorem forward_parse_nested_inner p e o1 o2 c1 c2 :
  nested_regions (value e) (openingDelimiter p) (closingDelimiter p)
    o1 o2 c1 c2 ->
  o1 < selTo e <= o2 ->
  result (parse p e true false) = true /\
  getTagPosition (parser' (parse p e true false))
  = Some (o2, c1 + len (closingDelimiter p)).
Proof.
  intros Hn Hsel.
  destruct (parse_found p e true (Some (region p (value e) o2 c1)))
    as (Hr & Hp & _).
  { eapply forward_scan_nested_inner; done. }
  split; [done|]. by rewrite Hp.
Qed.

Lemma forward_parse_nested_inner_witness :
  result (parse (pluginParser DEFAULT_SETTINGS)
            (mkEditor (txt "|<a|<b>|c>| z") 1 1) true false) = true /\
  getTagPosition
    (parser' (parse (pluginParser DEFAULT_SETTINGS)
                (mkEditor (txt "|<a|<b>|c>| z") 1 1) true false))
  = Some (3, 6 + len (closingDelimiter (pluginParser DEFAULT_SETTINGS))).
Proof.
  apply (forward_parse_nested_inner (pluginParser DEFAULT_SETTINGS)
           (mkEditor (txt "|<a|<b>|c>| z") 1 1) 0 3 6 9).
  - repeat split; try reflexivity; lia.
  - simpl. lia.
Defined.

(** X22. In a buffer of shape [O O C C], a backward parse from a selection
    that starts after the beginning of the last closing delimiter resolves
    the outer region: [parentStart] is the first opening delimiter and
    [parentEnd] is just past the last closing delimiter. *)
Theorem backward_parse_nested_outer p e o1 o2 c1 c2 :
  nested_regions (value e) (openingDelimiter p) (closingDelimiter p)
    o1 o2 c1 c2 ->
  c2 < selFrom e <= len (value e) ->
  result (parse p e false false) = true /\
  getTagPosition (parser' (parse p e false false))
  = Some (o1, c2 + len (closingDelimiter p)).
Proof.
  intros Hn Hsel.
  destruct (parse_found p e false (Some (region p (value e) o1 c2)))
    as (Hr & Hp & _).
  { unfold first_scan, cursorIndex.
    eapply backward_scan_nested_outer; [done | lia]. }
  split; [done|]. by rewrite Hp.
Qed.

Lemma backward_parse_nested_outer_witness :
  result (parse (pluginParser DEFAULT_SETTINGS)
            (mkEditor (txt "|<a|<b>|c>| z") 13 13) false false) = true /\
  getTagPosition
    (parser' (parse (pluginParser DEFAULT_SETTINGS)
                (mkEditor (txt "|<a|<b>|c>| z") 13 13) false false))
  = Some (0, 9 + len (closingDelimiter (pluginParser DEFAULT_SETTINGS))).
Proof.
  apply (backward_parse_nested_outer (pluginParser DEFAULT_SETTINGS)
           (mkEditor (txt "|<a|<b>|c>| z") 13 13) 0 3 6 9).
  - repeat split; try reflexivity; lia.
  - unfold len. simpl. lia.
Defined.

(** X23. In a buffer of shape [O O C C], a backward parse from a selection
    that starts inside the outer region, after the beginning of the first
    closing delimiter and at or before the last one, resolves the inner
    region. *)
Theorem backward_parse_nested_inner p e o1 o2 c1 c2 :
  nested_regions (value e) (openingDelimiter p) (closingDelimiter p)
    o1 o2 c1 c2 ->
  c1 < selFrom e <= c2 ->
  result (parse p e false false) = true /\
  getTagPosition (parser' (parse p e false false))
  = Some (o2, c1 + len (closingDelimiter p)).
Proof.
  intros Hn Hsel.
  destruct (parse_found p e false (Some (region p (value e) o2 c1)))
    as (Hr & Hp & _).
  { unfold first_scan, cursorIndex.
    eapply backward_scan_nested_inner; [done | lia]. }
  split; [done|]. by rewrite Hp.
Qed.

Lemma backward_parse_nested_inner_witness :
  result (parse (pluginParser DEFAULT_SETTINGS)
            (mkEditor (txt "|<a|<b>|c>| z") 9 9) false false) = true /\
  getTagPosition
    (parser' (parse (pluginParser DEFAULT_SETTINGS)
                (mkEditor (txt "|<a|<b>|c>| z") 9 9) false false))
  = Some (3, 6 + len (closingDelimiter (pluginParser DEFAULT_SETTINGS))).
Proof.
  apply (backward_parse_nested_inner (pluginParser DEFAULT_SETTINGS)
           (mkEditor (txt "|<a|<b>|c>| z") 9 9) 0 3 6 9).
  - repeat split; try reflexivity; lia.
  - simpl. lia.
Defined.

(** ** The commands on their other paths *)

(** X24. "Select inner content" from a cursor or a selection that is not
    itself a tag: when the forward parse finds a region, for non-empty
    delimiters that cannot overlap, the command selects the inner span of
    that region, and the selected text is the stored content. *)
Theorem select_inner_from_cursor p e :
  openingDelimiter p <> [] -> closingDelimiter p <> [] ->
  overlap_free (openingDelimiter p) (closingDelimiter p) = true ->
  valid_selection e ->
  checkInTag p e = false ->
  result (parse p e true false) = true ->
  let s := selectInnerContent p e in
  exists t, tagStruct s.1 = Some t /\
    selFrom s.2 = innerStart t /\ selTo s.2 = innerEnd t /\
    getSelection s.2 = content t /\ value s.2 = value e.
Proof.
  intros Ho Hc Hfree Hv Hin Hres. simpl.
  destruct (parse_true_framed p e true false Ho Hc Hfree Hv Hres)
    as (t & pre & post & Ht & Hfr).
  destruct (parse_true_parser p e true false Hres) as (Hp & He).
  unfold selectInnerContent. rewrite Hin. cbn [negb fst snd].
  rewrite He, Hp, Ht. exists t. split; [done|].
  by destruct (highlight_inner_framed (with_tagStruct p (Some t)) e t pre post
                 eq_refl Hfr) as (? & ? & ? & ?).
Qed.

Lemma select_inner_from_cursor_witness :
  let p := pluginParser DEFAULT_SETTINGS in
  let e := mkEditor (txt "a |<b|<c>|>| d") 0 1 in
  let s := selectInnerContent p e in
  exists t, tagStruct s.1 = Some t /\
    selFrom s.2 = innerStart t /\ selTo s.2 = innerEnd t /\
    getSelection s.2 = content t /\ value s.2 = value e.
Proof.
  apply (select_inner_from_cursor (pluginParser DEFAULT_SETTINGS)
           (mkEditor (txt "a |<b|<c>|>| d") 0 1)).
  - discriminate.
  - discriminate.
  - reflexivity.
  - unfold valid_selection, len. simpl. lia.
  - reflexivity.
  - vm_compute. reflexivity.
Defined.

(** X25. A selection that begins with the opening delimiter and ends with
    the closing one passes [checkInTag] whether or not a Match State is
    held.  When none is held (after a reset, a failed parse, or before
    any parse), "remove tag" and "select inner content" skip the parse on
    the strength of that test and then find nothing to work on: "remove
    tag" reports failure, and both leave the parser and the editor as
    they were. *)
Theorem commands_on_selected_tag_without_state p e :
  checkInTag p e = true -> tagStruct p = None ->
  keepTagDefaultContent p e = (false, p, e) /\
  selectInnerContent p e = (p, e).
Proof.
  intros Hin Hts.
  unfold keepTagDefaultContent, selectInnerContent, acceptDefaultText,
    highlightInnerTag.
  rewrite Hin, Hts. simpl. by rewrite Hts.
Qed.

Lemma commands_on_selected_tag_without_state_witness :
  keepTagDefaultContent (pluginParser DEFAULT_SETTINGS)
    (mkEditor (txt "a |<X>| b") 2 7)
  = (false, pluginParser DEFAULT_SETTINGS, mkEditor (txt "a |<X>| b") 2 7) /\
  selectInnerContent (pluginParser DEFAULT_SETTINGS)
    (mkEditor (txt "a |<X>| b") 2 7)
  = (pluginParser DEFAULT_SETTINGS, mkEditor (txt "a |<X>| b") 2 7).
Proof.
  apply (commands_on_selected_tag_without_state
           (pluginParser DEFAULT_SETTINGS) (mkEditor (txt "a |<X>| b") 2 7));
    reflexivity.
Defined.

Lemma highlightTag_value p e : value (snd (highlightTag p e)) = value e.
Proof. unfold highlightTag. by destruct (tagStruct p). Qed.

Lemma highlightInnerTag_value p e :
  value (snd (highlightInnerTag p e)) = value e.
Proof. unfold highlightInnerTag. by destruct (tagStruct p). Qed.

Lemma acceptDefaultText_false p e :
  fst (acceptDefaultText p e) = true \/ snd (acceptDefaultText p e) = e.
Proof. unfold acceptDefaultText. destruct (tagStruct p); [by left | by right]. Qed.

(** X26. The navigation commands and "select inner content" never change
    the buffer; "remove tag" changes it only when it reports success. *)
Theorem commands_keep_buffer p e forward :
  value (advance p e forward).2 = value e /\
  value (selectInnerContent p e).2 = value e /\
  ((keepTagDefaultContent p e).1.1 = true \/
   value (keepTagDefaultContent p e).2 = value e).
Proof.
  split; [|split].
  - unfold advance.
    pose proof (parse_frame p e forward false) as (Hv & _).
    destruct (result (parse p e forward false)); simpl; [|done].
    by rewrite highlightTag_value.
  - unfold selectInnerContent.
    pose proof (parse_frame p e true false) as (Hv & _).
    destruct (checkInTag p e); simpl; by rewrite highlightInnerTag_value.
  - unfold keepTagDefaultContent.
    pose proof (parse_frame p e true false) as (Hv & _).
    destruct (checkInTag p e).
    + destruct (acceptDefaultText_false p e) as [H|H];
        destruct (acceptDefaultText p e) as [ok e1]; simpl in *;
        [by left | right; by subst].
    + destruct (result (parse p e true false)); simpl; [|by right].
      destruct (acceptDefaultText_false (parser' (parse p e true false))
                  (editor' (parse p e true false))) as [H|H];
        destruct (acceptDefaultText _ _) as [ok e1]; simpl in *;
        [by left | right; by subst].
Qed.
